(** * The expression evaluator of [expr/expr.go]

    A shallow embedding of the evaluation engine: the value model
    ([Scalar], [Number], [Series]), the tag-group join ([union]), the
    operator tables ([operate], [uoperate]), the tree walker and [Execute]
    with its panic recovery.

    Conventions of the embedding.
    - [float64] is Rocq's primitive binary64 [float]; Go's arithmetic and
      comparison operators are the kernel's primitives.
    - A Go [map] that the evaluator only reads or builds afresh ([TagSet],
      [Series]) is a [gmap]; a slice is a [list], and the nil slice is [[]].
    - A [*Result] is a location in a store of [Result] records, because
      [walkUnary] and [walkFunc] write through the pointers they are handed.
      A location outside the store plays the role of the nil pointer.
    - [panic] is the [Panicked] outcome of the evaluation monad; a panic
      that escapes [Execute] is the [Crashed] result. *)

From Stdlib Require Import Floats.
From stdpp Require Import gmap strings list fin_maps.

Open Scope string_scope.
Open Scope list_scope.

Abbreviation float64 := float.

(** ** Tag sets *)

Module opentsdb.

(** Modelled from the spec: [opentsdb.TagSet], a [map[string]string], lives
    in the vendored scollector package.  Its keys are unique and its order
    is irrelevant, so it is a finite map. *)
Abbreviation TagSet := (gmap string string).

(** Go's [len] on a tag set. *)
Definition len (t : TagSet) : nat := size t.

(** Modelled from the spec: [TagSet.Equal], "same key/value pairs". *)
Definition Equal (t o : TagSet) : bool := bool_decide (t = o).

(** Modelled from the spec: [TagSet.Subset].  [t.Subset(o)] reports whether
    every pair of [o] is also present in [t]; this is the orientation under
    which the larger tag set is the one [union] keeps, as the join's
    description and its second scenario require. *)
Definition Subset (t o : TagSet) : bool :=
  bool_decide (map_Forall (λ k v, t !! k = Some v) o).

(** A sample of a time series. *)
Abbreviation Point := float64.

End opentsdb.

Import opentsdb.

(** ** Values, results and unions *)

Inductive FuncType : Set := TYPE_STRING | TYPE_SCALAR | TYPE_NUMBER | TYPE_SERIES.

#[global] Instance FuncType_eq_dec : EqDecision FuncType.
Proof. solve_decision. Defined.

(** The [Value] interface, given by the three types of the package that
    implement it. *)
Inductive Value : Type :=
| Scalar (s : float64)
| Number (n : float64)
| Series (s : gmap string Point).

Definition Type_ (v : Value) : FuncType :=
  match v with
  | Scalar _ => TYPE_SCALAR
  | Number _ => TYPE_NUMBER
  | Series _ => TYPE_SERIES
  end.

Record Computation : Type := mkComputation {
  Text : string;
  CValue : float64
}.

Record Result : Type := mkResult {
  Computations : list Computation;
  RValue : Value;
  Group : TagSet
}.

Record Union : Type := mkUnion {
  UComputations : list Computation;
  A : Value;
  B : Value;
  UGroup : TagSet
}.

(** [u.ExtendComputations(o)] *)
Definition ExtendComputations (u : Union) (o : Result) : Union :=
  {| UComputations := UComputations u ++ Computations o;
     A := A u; B := B u; UGroup := UGroup u |}.

Definition setGroup (u : Union) (g : TagSet) : Union :=
  {| UComputations := UComputations u; A := A u; B := B u; UGroup := g |}.

(** ** The group join *)

(** The body of the inner loop of [union]: [None] is the [continue] branch,
    [Some u] the union that is appended to [us]. *)
Definition union_body (ra rb : Result) : option Union :=
  let u := {| UComputations := []; A := RValue ra; B := RValue rb; UGroup := ∅ |} in
  let grouped :=
    if Equal (Group ra) (Group rb) || bool_decide (len (Group ra) = 0)
       || bool_decide (len (Group rb) = 0)
    then
      let g := if bool_decide (len (Group ra) = 0) then Group rb else Group ra in
      Some (setGroup u g)
    else if Subset (Group ra) (Group rb) then Some (setGroup u (Group ra))
    else if Subset (Group rb) (Group ra) then Some (setGroup u (Group rb))
    else None in
  match grouped with
  | Some u => Some (ExtendComputations (ExtendComputations u ra) rb)
  | None => None
  end.

(** ** Panics and errors *)

(** Go's [error] values, as far as the evaluator tells them apart: the ones
    [fmt.Errorf] builds, and the ones the run time raises, which implement
    [runtime.Error]. *)
Inductive error : Type :=
| Errorf (msg : string)
| TypeAssertionError (msg : string)
| NilDereference.

Definition is_runtime_Error (e : error) : bool :=
  match e with
  | Errorf _ => false
  | TypeAssertionError _ | NilDereference => true
  end.

Definition ErrUnknownOp : error := Errorf "expr: unknown op type".

(** The argument of [panic]: an [error], or any other value. *)
Inductive panic_value : Type :=
| PanicError (e : error)
| PanicValue (v : string).

(** A computation that touches no state and may panic. *)
Inductive fallible (X : Type) : Type :=
| Ok (x : X)
| Panic (p : panic_value).
Arguments Ok {X} x.
Arguments Panic {X} p.

#[global] Instance fallible_ret : MRet fallible := λ X x, Ok x.
#[global] Instance fallible_bind : MBind fallible := λ X Y f m,
  match m with
  | Ok x => f x
  | Panic p => Panic p
  end.

(** ** Operators *)

Definition of_bool (b : bool) : float64 := if b then 1%float else 0%float.

(** Go's [a != b] on floats is the negation of [a == b]; [a > b] and
    [a >= b] are [b < a] and [b <= a]. *)
Definition operate (op : string) (a b : float64) : fallible float64 :=
  match op with
  | "+" => Ok (a + b)%float
  | "*" => Ok (a * b)%float
  | "-" => Ok (a - b)%float
  | "/" => Ok (a / b)%float
  | "==" => Ok (of_bool (a =? b)%float)
  | ">" => Ok (of_bool (b <? a)%float)
  | "!=" => Ok (of_bool (negb (a =? b)%float))
  | "<" => Ok (of_bool (a <? b)%float)
  | ">=" => Ok (of_bool (b <=? a)%float)
  | "<=" => Ok (of_bool (a <=? b)%float)
  | "||" => Ok (of_bool (negb (a =? 0)%float || negb (b =? 0)%float))
  | "&&" => Ok (of_bool (negb (a =? 0)%float && negb (b =? 0)%float))
  | _ => Panic (PanicError (Errorf ("expr: unknown operator " ++ op)%string))
  end.

Definition uoperate (op : string) (a : float64) : fallible float64 :=
  match op with
  | "!" => Ok (of_bool (a =? 0)%float)
  | "-" => Ok (- a)%float
  | _ => Panic (PanicError (Errorf ("expr: unknown operator " ++ op)%string))
  end.

(** [s := make(Series); for k, v := range bt { s[k] = f(v) }]: the loop
    stops at the first sample on which [f] panics. *)
Definition series_map (f : float64 → fallible float64) (bt : gmap string Point)
  : fallible (gmap string Point) :=
  map_fold (λ k v acc, s ← acc; x ← f v; mret (<[k := x]> s)) (Ok ∅) bt.

(** ** Collaborators *)

(** Modelled from the spec: the types the evaluator receives from the
    backend and profiler packages, which it only passes on.  [Context] is the
    query context, [Request] a backend request the evaluator accumulates,
    [Timer] the step-tracing interface.  [T.Step(name, f)] runs [f] once,
    synchronously, on a timer of the implementation's choosing: [Step T name]
    is that timer.  [new_Profile] is [new(miniprofiler.Profile)].
    [ReplaceTags] substitutes a group's tag values into a text. *)
Class External : Type := {
  Context : Type;
  Request : Type;
  Timer : Type;
  Step : Timer → string → Timer;
  new_Profile : Timer;
  ReplaceTags : string → TagSet → string
}.

(** ** The store of results and the evaluation monad *)

(** A [*Result]. *)
Abbreviation loc := nat.

(** The [Result]s allocated so far, by location. *)
Abbreviation store := (list Result).

(** The fields of [state] the walker and the built-ins use.  The embedded
    [*Expr] is not read by the walker and is left out. *)
Record state `{Ext : External} : Type := mkState {
  context : Context;
  queries : list Request
}.

Inductive reply `{Ext : External} (X : Type) : Type :=
| Done (x : X) (s : state) (h : store)
| Panicked (p : panic_value) (s : state) (h : store).
Arguments Done {_ X} x s h.
Arguments Panicked {_ X} p s h.

Definition M `{Ext : External} (X : Type) : Type := state → store → reply X.

#[global] Instance M_ret `{Ext : External} : MRet M := λ X x s h, Done x s h.
#[global] Instance M_bind `{Ext : External} : MBind M := λ X Y f m s h,
  match m s h with
  | Done x s' h' => f x s' h'
  | Panicked p s' h' => Panicked p s' h'
  end.

Definition panic `{Ext : External} {X : Type} (e : error) : M X :=
  λ s h, Panicked (PanicError e) s h.

Definition lift `{Ext : External} {X : Type} (m : fallible X) : M X :=
  λ s h, match m with
         | Ok x => Done x s h
         | Panic p => Panicked p s h
         end.

(** Reading through a pointer; a location outside the store faults. *)
Definition load `{Ext : External} (r : loc) : M Result :=
  λ s h, match h !! r with
         | Some v => Done v s h
         | None => Panicked (PanicError NilDereference) s h
         end.

(** Writing through a pointer that has just been read. *)
Definition save `{Ext : External} (r : loc) (v : Result) : M unit :=
  λ s h, Done () s (<[r := v]> h).

(** [&Result{...}]: a fresh location. *)
Definition alloc `{Ext : External} (v : Result) : M loc :=
  λ s h, Done (length h) s (h ++ [v]).

(** [for _, x := range l { body }] *)
Fixpoint for_range `{Ext : External} {X : Type} (l : list X) (body : X → M unit) : M unit :=
  match l with
  | [] => mret ()
  | x :: l => body x ;; for_range l body
  end.

(** [e.addRequest(r)] *)
Definition addRequest `{Ext : External} (r : Request) : M unit :=
  λ s h, Done () {| context := context s; queries := queries s ++ [r] |} h.

(** [r.AddComputation(text, result)] on the record [r] points to. *)
Definition AddComputation `{Ext : External} (r : Result) (text : string) (result : float64)
  : Result :=
  {| Computations :=
       Computations r ++ [mkComputation (ReplaceTags text (Group r)) result];
     RValue := RValue r;
     Group := Group r |}.

(** [r.Value = v] on the record [r] points to. *)
Definition setValue (r : Result) (v : Value) : Result :=
  {| Computations := Computations r; RValue := v; Group := Group r |}.

(** [wrap(v)]: one new result with a nil group. *)
Definition wrap `{Ext : External} (v : float64) : M (list loc) :=
  r ← alloc {| Computations := []; RValue := Scalar v; Group := ∅ |};
  mret [r].

(** [for _, x := range l { acc = body(acc, x) }], for a loop that grows a
    local slice. *)
Fixpoint range_fold `{Ext : External} {X Acc : Type} (l : list X) (acc : Acc)
    (body : Acc → X → M Acc) : M Acc :=
  match l with
  | [] => mret acc
  | x :: l => acc ← body acc x; range_fold l acc body
  end.

(** [union(a, b)]: the pairs are visited in row-major order, and each
    iteration reads [ra] and [rb] through their pointers. *)
Definition union `{Ext : External} (a b : list loc) : M (list Union) :=
  range_fold a [] (λ us ra,
    range_fold b us (λ us rb,
      va ← load ra;
      vb ← load rb;
      mret (match union_body va vb with
            | Some u => us ++ [u]
            | None => us
            end))).

(** ** The syntax tree *)

(** What [walkFunc] hands to a built-in for one argument: a string, a bare
    [float64], or a slice of results. *)
Inductive argument : Type :=
| AString (s : string)
| AFloat64 (f : float64)
| AResults (res : list loc).

(** A built-in, called as [f(e, T, args...)]: it may register requests and
    allocate results, and returns a slice of results and an error. *)
Definition builtin `{Ext : External} : Type :=
  Timer → list argument → M (list loc * option error).

(** [parse.Func]: the descriptor of a built-in. *)
Record Func `{Ext : External} : Type := mkFunc {
  Return : FuncType;
  F : builtin
}.

(** [parse.Node], by its five node types. *)
#[warnings="-register-all"]
Inductive Node `{Ext : External} : Type :=
| NumberNode (Float64 : float64)
| StringNode (Text : string)
| BinaryNode (OpStr : string) (Arg0 Arg1 : Node)
| UnaryNode (OpStr : string) (Arg : Node)
| FuncNode (Name : string) (Fn : Func) (Args : list Node).

(** Modelled from the spec: [node.String()], the textual form of a node,
    which the parse package computes. *)
Class Printer `{Ext : External} : Type := String_ : Node → string.

(** [Expr], by the root of its parse tree. *)
Record Expr `{Ext : External} : Type := mkExpr { Root : Node }.
Arguments mkExpr {Ext} Root.

(** ** The tree walker *)

(** The [Result] that [walkBinary] starts from for a union [v], with its
    [Value] already in place ([AddComputation] does not read it). *)
Definition newResult (v : Union) (value : Value) : Result :=
  {| Computations := UComputations v; RValue := value; Group := UGroup v |}.

(** The body of the loop of [walkBinary]: the result for one union.  The
    two type switches have no [default] case here, [Value] having exactly
    three implementations; the pair without a rule is Series with Series. *)
Definition walkBinary_body `{Ext : External} (OpStr text : string) (v : Union)
  : fallible Result :=
  match A v with
  | Scalar at_ =>
      match B v with
      | Scalar bt =>
          n ← operate OpStr at_ bt;
          mret (AddComputation (newResult v (Scalar n)) text n)
      | Number bt =>
          n ← operate OpStr at_ bt;
          mret (AddComputation (newResult v (Number n)) text n)
      | Series bt =>
          s ← series_map (λ v, operate OpStr at_ v) bt;
          mret (newResult v (Series s))
      end
  | Number at_ =>
      match B v with
      | Scalar bt =>
          n ← operate OpStr at_ bt;
          mret (AddComputation (newResult v (Number n)) text n)
      | Number bt =>
          n ← operate OpStr at_ bt;
          mret (AddComputation (newResult v (Number n)) text n)
      | Series bt =>
          s ← series_map (λ v, operate OpStr at_ v) bt;
          mret (newResult v (Series s))
      end
  | Series at_ =>
      match B v with
      | Number bv | Scalar bv =>
          s ← series_map (λ v, operate OpStr v bv) at_;
          mret (newResult v (Series s))
      | Series _ => Panic (PanicError ErrUnknownOp)
      end
  end.

(** [extractScalar(res)] *)
Definition extractScalar `{Ext : External} (res : list loc) : M argument :=
  match res with
  | [r0] =>
      v ← load r0;
      if decide (Type_ (RValue v) = TYPE_SCALAR) then
        match RValue v with
        | Scalar s => mret (AFloat64 s)
        | _ => panic (TypeAssertionError "interface conversion: interface {} is not expr.Scalar")
        end
      else mret (AResults res)
  | _ => mret (AResults res)
  end.

(** The body of the loop of [walkUnary], on one pointer [r]. *)
Definition walkUnary_body `{Ext : External} (OpStr : string) (r : loc) : M unit :=
  v ← load r;
  match RValue v with
  | Scalar rt =>
      x ← lift (uoperate OpStr rt);
      save r (setValue v (Scalar x))
  | Number rt =>
      x ← lift (uoperate OpStr rt);
      save r (setValue v (Number x))
  | Series rt =>
      s ← lift (series_map (uoperate OpStr) rt);
      save r (setValue v (Series s))
  end.

(** The run-time fault of the type assertion [r.Value.(Number)]. *)
Definition NumberAssertion : error :=
  TypeAssertionError "interface conversion: expr.Value is not expr.Number".

(** [r.AddComputation(text, r.Value.(Number))], the body of the loop that
    [walkFunc] runs when the function is declared to return a Number. *)
Definition walkFunc_body `{Ext : External} (text : string) (r : loc) : M unit :=
  v ← load r;
  match RValue v with
  | Number n => save r (AddComputation v text n)
  | _ => panic NumberAssertion
  end.

Section walker.
Context `{Ext : External} `{Pr : !Printer}.
Variable walk : Node → Timer → M (list loc).

(** [e.walkBinary(node, T)], for [node = BinaryNode OpStr Arg0 Arg1]. *)
Definition walkBinary_of (node : Node) (OpStr : string) (Arg0 Arg1 : Node)
    (T : Timer) : M (list loc) :=
  ar ← walk Arg0 T;
  br ← walk Arg1 T;
  u ← union ar br;
  range_fold u [] (λ res v,
    r ← lift (walkBinary_body OpStr (String_ node) v);
    p ← alloc r;
    mret (res ++ [p])).

(** [e.walkUnary(node, T)], for [node = UnaryNode OpStr Arg]. *)
Definition walkUnary_of (OpStr : string) (Arg : Node) (T : Timer) : M (list loc) :=
  a ← walk Arg T;
  for_range a (walkUnary_body OpStr);;
  mret a.

(** The value [walkFunc] passes for one argument node. *)
Definition walkFunc_arg (T : Timer) (a : Node) : M argument :=
  match a with
  | StringNode t => mret (AString t)
  | NumberNode f => mret (AFloat64 f)
  | FuncNode _ _ _ | UnaryNode _ _ | BinaryNode _ _ _ =>
      res ← walk a T;
      extractScalar res
  end.

(** [e.walkFunc(node, T)], for [node = FuncNode Name Fn Args]; [fr] is what
    the call of the built-in returns. *)
Definition walkFunc_of (node : Node) (Fn : Func) (Args : list Node) (T : Timer)
  : M (list loc) :=
  in_ ← mapM (walkFunc_arg T) Args;
  fr ← F Fn T in_;
  match fr.2 with
  | Some err => panic err
  | None => mret ()
  end;;
  (if decide (Return Fn = TYPE_NUMBER) then
     for_range fr.1 (walkFunc_body (String_ node))
   else mret ());;
  mret fr.1.

End walker.

(** [e.walk(node, T)] *)
Fixpoint walk `{Ext : External} `{Pr : !Printer} (node : Node) (T : Timer) {struct node}
  : M (list loc) :=
  match node with
  | NumberNode f => wrap f
  | BinaryNode OpStr Arg0 Arg1 => walkBinary_of walk node OpStr Arg0 Arg1 T
  | UnaryNode OpStr Arg => walkUnary_of walk OpStr Arg T
  | FuncNode _ Fn Args => walkFunc_of walk node Fn Args T
  | StringNode _ => panic (Errorf "expr: unknown node type")
  end.

Definition walkBinary `{Ext : External} `{Pr : !Printer} := walkBinary_of walk.
Definition walkUnary `{Ext : External} `{Pr : !Printer} := walkUnary_of walk.
Definition walkFunc `{Ext : External} `{Pr : !Printer} := walkFunc_of walk.

(** ** Execute and its recovery handler *)

(** What the deferred [errRecover] does with a recovered panic value: it
    stores an ordinary [error] in [*errp], and panics again on a
    [runtime.Error] or on a value that is not an [error]. *)
Inductive recovery : Type :=
| Recovered (err : error)
| Repanicked (e : panic_value).

Definition errRecover (e : panic_value) : recovery :=
  match e with
  | PanicError err =>
      if is_runtime_Error err then Repanicked e else Recovered err
  | PanicValue _ => Repanicked e
  end.

(** The two ways a call of [Execute] ends: it returns [(r, queries, err)],
    leaving the store [h] behind, or a panic escapes it. *)
Inductive exec_result `{Ext : External} : Type :=
| Returned (r : list loc) (queries : list Request) (err : option error) (h : store)
| Crashed (e : panic_value).

(** [e.Execute(c, T)], started on the store [h]; a nil [T] is [None].  The
    named results [r] and [queries] are still nil when a panic is recovered. *)
Definition Execute `{Ext : External} `{Pr : !Printer} (e : Expr) (c : Context)
    (T : option Timer) (h : store) : exec_result :=
  let s := {| context := c; queries := [] |} in
  let T := match T with
           | None => new_Profile
           | Some T => T
           end in
  match walk (Root e) (Step T "expr execute") s h with
  | Done r s' h' => Returned r (queries s') None h'
  | Panicked p s' h' =>
      match errRecover p with
      | Recovered err => Returned [] [] (Some err) h'
      | Repanicked p => Crashed p
      end
  end.

(** ** JSON encoding of numbers *)

(** Modelled from the spec: what [json.Marshal] produces for the two kinds of
    argument [marshalFloat] gives it.  A Go string encodes as a JSON string
    literal; a float encodes as the plain numeric literal of that value, and
    [json.Marshal] refuses a float that is not finite. *)
Inductive json : Type :=
| JString (s : string)
| JNumber (n : float64).

Definition json_Marshal_string (s : string) : json + error := inl (JString s).

Definition json_Marshal_float64 (n : float64) : json + error :=
  if is_finite n then inl (JNumber n)
  else inr (Errorf "json: unsupported value").

(** [math.IsNaN(f)] is [f != f]. *)
Definition IsNaN (f : float64) : bool := negb (f =? f)%float.

(** [math.MaxFloat64] *)
Definition MaxFloat64 : float64 := 0x1.fffffffffffffp+1023%float.

(** [math.IsInf(f, sign)], for [sign] 1 and -1. *)
Definition IsInf (f : float64) (sign : Z) : bool :=
  (bool_decide (0 ≤ sign)%Z && (MaxFloat64 <? f)%float)
  || (bool_decide (sign ≤ 0)%Z && (f <? - MaxFloat64)%float).

Definition marshalFloat (n : float64) : json + error :=
  if IsNaN n then json_Marshal_string "NaN"
  else if IsInf n 1 then json_Marshal_string "+Inf"
  else if IsInf n (-1) then json_Marshal_string "-Inf"
  else json_Marshal_float64 n.

(** [Number.MarshalJSON] and [Scalar.MarshalJSON]; [Series] has no method of
    its own. *)
Definition MarshalJSON (v : Value) : option (json + error) :=
  match v with
  | Number n => Some (marshalFloat n)
  | Scalar s => Some (marshalFloat s)
  | Series _ => None
  end.

(** ** Specification vocabulary *)

(** Two results may be combined when their groups are equal, when either
    group is empty, or when one group is contained in the other. *)
Definition combinable (ra rb : Result) : Prop :=
  Group ra = Group rb ∨ Group ra = ∅ ∨ Group rb = ∅
  ∨ Group ra ⊆ Group rb ∨ Group rb ⊆ Group ra.

(** The slice [a] points to the results [ras] in the store [h]. *)
Definition points_to (h : store) (a : list loc) (ras : list Result) : Prop :=
  Forall2 (λ l r, h !! l = Some r) a ras.

(** The operator tokens [operate] recognises. *)
Definition binary_ops : list string :=
  ["+"; "*"; "-"; "/"; "=="; ">"; "!="; "<"; ">="; "<="; "||"; "&&"].

(** The operator tokens [uoperate] recognises. *)
Definition unary_ops : list string := ["!"; "-"].

(** The ordering of two floats by the binary64 specification: [None] when
    either is NaN. *)
Definition ieee_compare (a b : float64) : option comparison :=
  SFcompare (Prim2SF a) (Prim2SF b).

(** Whether a comparison operator holds for an outcome of [ieee_compare]. *)
Definition comparison_holds (op : string) (c : option comparison) : bool :=
  match op, c with
  | "==", Some Eq => true
  | "!=", Some Eq => false
  | "!=", _ => true
  | "<", Some Lt => true
  | "<=", Some (Lt | Eq) => true
  | ">", Some Gt => true
  | ">=", Some (Gt | Eq) => true
  | _, _ => false
  end.

Definition comparison_ops : list string := ["=="; "!="; "<"; "<="; ">"; ">="].

(** A float counts as true when it is not a zero. *)
Definition truthy (x : float64) : bool := negb (is_zero x).

(** The division clause as the specification words it: dividing by a zero
    gives NaN when the dividend is a zero and a signed infinity when it is
    not. *)
Definition division_by_zero_law (a b : float64) : Prop :=
  is_zero b = true →
  ∃ r, operate "/" a b = Ok r
       ∧ if is_zero a then is_nan r = true else is_infinity r = true.


(** What a recognised unary operator does to one float. *)
Definition unary_fn (OpStr : string) (a : float64) : float64 :=
  if decide (OpStr = "!") then (if is_zero a then 1 else 0)%float
  else (- a)%float.

(** A function on floats applied to a value: to the float of a Scalar or a
    Number, and to every sample of a Series. *)
Definition map_Value (f : float64 → float64) (v : Value) : Value :=
  match v with
  | Scalar x => Scalar (f x)
  | Number x => Number (f x)
  | Series s => Series (f <$> s)
  end.

(** How many times the pointer [r] occurs in the slice [a]. *)
Definition occurrences (r : loc) (a : list loc) : nat :=
  length (filter (λ x, x = r) a).

(** The store after each pointer of [a], in turn, has had [g] applied to the
    record it points to. *)
Definition updated (g : Result → Result) (a : list loc) (h : store) : store :=
  foldl (λ h r, alter g r h) h a.





(** The state [Execute] starts from, and the timer it hands to [walk]. *)
Definition initial `{Ext : External} (c : Context) : state :=
  {| context := c; queries := [] |}.

Definition execute_timer `{Ext : External} (T : option Timer) : Timer :=
  Step (match T with None => new_Profile | Some T => T end) "expr execute".






(** The float a Scalar or a Number holds. *)
Definition numeric (v : Value) : option float64 :=
  match v with
  | Scalar x | Number x => Some x
  | Series _ => None
  end.

Definition is_Scalar (v : Value) : bool :=
  match v with
  | Scalar _ => true
  | _ => false
  end.

(** The value of an expression that calls no function, computed on floats
    alone, in the order in which [walk] visits the tree: [None] when the tree
    holds a function call. *)
Fixpoint constant `{Ext : External} (node : Node) : option (fallible float64) :=
  match node with
  | NumberNode f => Some (Ok f)
  | StringNode _ => Some (Panic (PanicError (Errorf "expr: unknown node type")))
  | UnaryNode OpStr Arg =>
      match constant Arg with
      | Some r => Some (x ← r; uoperate OpStr x)
      | None => None
      end
  | BinaryNode OpStr Arg0 Arg1 =>
      match constant Arg0, constant Arg1 with
      | Some ra, Some rb => Some (x ← ra; y ← rb; operate OpStr x y)
      | _, _ => None
      end
  | FuncNode _ _ _ => None
  end.

(** What [walkFunc] is bound to pass for an argument that is a string
    literal, a number literal or an expression without function calls that
    evaluates to the float [x]. *)
Definition literal_argument `{Ext : External} (a : Node) : option argument :=
  match a with
  | StringNode t => Some (AString t)
  | _ =>
      match constant a with
      | Some (Ok x) => Some (AFloat64 x)
      | _ => None
      end
  end.









(** * Example data *)

(** A profiler that counts nesting depth, contexts and requests without
    content, and tag substitution that leaves the text as it is. *)
Definition demo : External := {|
  Context := unit;
  Request := string;
  Timer := nat;
  Step := λ T _, S T;
  new_Profile := 0;
  ReplaceTags := λ text _, text
|}.

Definition host_a : TagSet := {[ "host" := "a" ]}.
Definition host_b : TagSet := {[ "host" := "b" ]}.
Definition host_a_prod : TagSet := <[ "env" := "prod" ]> {[ "host" := "a" ]}.

(** The state of [Execute] after the requests [qs] have been registered. *)
Definition state_with (qs : list string) : @state demo := @mkState demo tt qs.


Definition state0 : @state demo := @mkState demo tt [].

(** Four results: three grouped numbers and one scalar. *)
Definition store0 : store :=
  [ mkResult [mkComputation "x" 1] (Number 1) host_a;
    mkResult [mkComputation "y" 5] (Number 5) host_a_prod;
    mkResult [] (Number 7) host_b;
    mkResult [] (Scalar 2) ∅ ].

(** A scalar on the left of a two-sample series. *)
Definition union_bcast : Union :=
  mkUnion [mkComputation "x" 1] (Scalar 10)
          (Series (<[ "t2" := 4%float ]> {[ "t1" := 1%float ]})) host_a.

(** A printer for the examples: operators and function names in infix and
    call notation, numbers as [n]. *)
Fixpoint demo_String (n : @Node demo) : string :=
  match n with
  | NumberNode _ => "n"
  | StringNode t => t
  | BinaryNode op l r => demo_String l ++ " " ++ op ++ " " ++ demo_String r
  | UnaryNode op a => op ++ demo_String a
  | FuncNode name _ _ => name ++ "()"
  end.

Definition demo_printer : @Printer demo := demo_String.

(** [q("h")]: registers one request and returns one two-sample series for
    the group [host=h]. *)
Definition q : @Func demo := {|
  Return := TYPE_SERIES;
  F := λ T args,
    match args with
    | [AString host] =>
        addRequest (Ext := demo) host;;
        r ← alloc (Ext := demo) (mkResult [] (Series (<[ "t2" := 4%float ]> {[ "t1" := 1%float ]}))
                            {[ "host" := host ]});
        mret ([r], None)
    | _ => mret ([], Some (Errorf "q: expected one string"))
    end
|}.

(** [count("h")]: declared to return a Number and does. *)
Definition count : @Func demo := {|
  Return := TYPE_NUMBER;
  F := λ T args,
    r ← alloc (Ext := demo) (mkResult [] (Number 2) host_a);
    mret ([r], None)
|}.

(** [broken()]: declared to return a Number, returns a Scalar. *)
Definition broken : @Func demo := {|
  Return := TYPE_NUMBER;
  F := λ T args,
    r ← alloc (Ext := demo) (mkResult [] (Scalar 2) host_a);
    mret ([r], None)
|}.

(** [fail()]: returns an error. *)
Definition fail : @Func demo := {|
  Return := TYPE_SERIES;
  F := λ T args, mret ([], Some (Errorf "backend unreachable"))
|}.


Definition call_count : @Node demo := FuncNode "count" count [].
Definition call_broken : @Node demo := FuncNode "broken" broken [].
Definition call_fail : @Node demo := FuncNode "fail" fail [].
Definition call_q (host : string) : @Node demo := FuncNode "q" q [StringNode host].



(** Two series of the same group, added. *)
Definition same_series : @Expr demo :=
  mkExpr (BinaryNode "+" (call_q "a") (call_q "a")).

Definition series_of (host : string) : Result :=
  mkResult [] (Series (<[ "t2" := 4%float ]> {[ "t1" := 1%float ]}))
           {[ "host" := host ]}.


(** [-q("a") * 2] *)
Definition scaled_series : @Expr demo :=
  mkExpr (BinaryNode "*" (UnaryNode "-" (call_q "a")) (NumberNode 2)).


(** * Theorems *)

(** ** Tag sets *)

Lemma Equal_spec (t o : TagSet) : Equal t o = true ↔ t = o.
Proof. unfold Equal. apply bool_decide_eq_true. Qed.

Lemma Subset_spec (t o : TagSet) : Subset t o = true ↔ o ⊆ t.
Proof.
  unfold Subset. rewrite bool_decide_eq_true, map_subseteq_spec.
  reflexivity.
Qed.

Lemma len_zero (t : TagSet) : bool_decide (len t = 0) = true ↔ t = ∅.
Proof. unfold len. rewrite bool_decide_eq_true. apply map_size_empty_iff. Qed.

(** ** Running the evaluation monad *)

Lemma run_bind `{Ext : External} {X Y : Type} (m : M X) (f : X → M Y) s h :
  (m ≫= f) s h = match m s h with
                 | Done x s' h' => f x s' h'
                 | Panicked p s' h' => Panicked p s' h'
                 end.
Proof. reflexivity. Qed.

Lemma run_ret `{Ext : External} {X : Type} (x : X) s h : mret (M := M) x s h = Done x s h.
Proof. reflexivity. Qed.

Lemma run_load `{Ext : External} (r : loc) (v : Result) s h :
  h !! r = Some v → load r s h = Done v s h.
Proof. intros Hr. unfold load. by rewrite Hr. Qed.

Lemma run_load_nil `{Ext : External} (r : loc) s h :
  h !! r = None → load r s h = Panicked (PanicError NilDereference) s h.
Proof. intros Hr. unfold load. by rewrite Hr. Qed.

(** ** The group join *)

Section union_facts.
Context `{Ext : External}.
Implicit Types (a b : list loc) (s : state) (h : store).

(** The inner loop appends the unions of one [ra], in the order of [b]. *)
Lemma union_inner (ra : loc) (va : Result) b rbs (us : list Union) s h :
  h !! ra = Some va →
  points_to h b rbs →
  range_fold b us (λ us rb,
      va ← load ra; vb ← load rb;
      mret (match union_body va vb with
            | Some u => us ++ [u]
            | None => us
            end)) s h
  = Done (us ++ omap (union_body va) rbs) s h.
Proof.
  intros Hra Hb. revert us.
  induction Hb as [|rb vb b rbs Hrb Hb IH]; intros us; simpl.
  - by rewrite app_nil_r.
  - rewrite run_bind, run_bind, (run_load _ _ _ _ Hra).
    rewrite run_bind, (run_load _ _ _ _ Hrb), run_ret, IH.
    destruct (union_body va vb); [|done].
    by rewrite <- app_assoc.
Qed.

Lemma union_outer a ras b rbs (us : list Union) s h :
  points_to h a ras →
  points_to h b rbs →
  range_fold a us (λ us ra,
    range_fold b us (λ us rb,
      va ← load ra; vb ← load rb;
      mret (match union_body va vb with
            | Some u => us ++ [u]
            | None => us
            end))) s h
  = Done (us ++ (ras ≫= λ va, omap (union_body va) rbs)) s h.
Proof.
  intros Ha Hb. revert us.
  induction Ha as [|ra va a ras Hra Ha IH]; intros us; simpl.
  - by rewrite app_nil_r.
  - rewrite run_bind, (union_inner _ _ _ _ _ _ _ Hra Hb), IH.
    by rewrite <- app_assoc.
Qed.

Lemma union_run a ras b rbs s h :
  points_to h a ras →
  points_to h b rbs →
  union a b s h = Done (ras ≫= λ va, omap (union_body va) rbs) s h.
Proof. intros Ha Hb. unfold union. by rewrite (union_outer _ _ _ _ _ _ _ Ha Hb). Qed.

End union_facts.

Lemma omap_option_list {X Y : Type} (f : X → option Y) (l : list X) :
  omap f l = l ≫= λ x, option_list (f x).
Proof.
  induction l as [|x l IH]; [done|].
  rewrite bind_cons, <- IH. simpl. by destruct (f x).
Qed.

Lemma union_body_is_Some (ra rb : Result) :
  is_Some (union_body ra rb) ↔ combinable ra rb.
Proof.
  unfold union_body, combinable.
  destruct (Equal (Group ra) (Group rb)) eqn:He; simpl.
  { apply Equal_spec in He. split; [auto | eauto]. }
  destruct (bool_decide (len (Group ra) = 0)) eqn:Ha; simpl.
  { apply len_zero in Ha. split; [auto | eauto]. }
  destruct (bool_decide (len (Group rb) = 0)) eqn:Hb; simpl.
  { apply len_zero in Hb. split; [auto | eauto]. }
  destruct (Subset (Group ra) (Group rb)) eqn:Hab; simpl.
  { apply Subset_spec in Hab. split; [auto 6 | eauto]. }
  destruct (Subset (Group rb) (Group ra)) eqn:Hba; simpl.
  { apply Subset_spec in Hba. split; [auto 6 | eauto]. }
  split; [intros [? [=]] |].
  intros [H | [H | [H | [H | H]]]].
  - apply Equal_spec in H. congruence.
  - apply len_zero in H. congruence.
  - apply len_zero in H. congruence.
  - apply Subset_spec in H. congruence.
  - apply Subset_spec in H. congruence.
Qed.

(** C1.  On slices of valid pointers [union] raises no error and leaves the
    store alone; its output is the concatenation, pair by pair in row-major
    order, of what the loop body emits for each pair (ra, rb), which is
    exactly one [Union] when the pair is combinable and nothing otherwise. *)
Theorem union_combinability `{Ext : External} (a b : list loc) (ras rbs : list Result)
    (s : state) (h : store) :
  points_to h a ras →
  points_to h b rbs →
  union a b s h
    = Done (ras ≫= λ ra, rbs ≫= λ rb, option_list (union_body ra rb)) s h
  ∧ ∀ ra rb : Result,
      (combinable ra rb ↔ ∃ u, union_body ra rb = Some u)
      ∧ (¬ combinable ra rb ↔ union_body ra rb = None).
Proof.
  intros Ha Hb. split.
  - rewrite (union_run _ _ _ _ _ _ Ha Hb). f_equal.
    clear Ha. induction ras as [|ra ras IH]; [done|].
    rewrite !bind_cons, IH. f_equal. apply omap_option_list.
  - intros ra rb. rewrite <- union_body_is_Some.
    destruct (union_body ra rb) as [u|]; split; split.
    + eauto.
    + eauto.
    + intros Hn. destruct Hn. eauto.
    + discriminate.
    + intros [? [=]].
    + intros [? [=]].
    + done.
    + intros _ [? [=]].
Qed.

Lemma union_combinability_witness :
  points_to store0 [0; 1] (take 2 store0)
  ∧ points_to store0 [2; 3] (drop 2 store0)
  ∧ union (Ext := demo) [0; 1] [2; 3] state0 store0
    = Done [ mkUnion [mkComputation "x" 1] (Number 1) (Scalar 2) host_a;
             mkUnion [mkComputation "y" 5] (Number 5) (Scalar 2) host_a_prod ]
           state0 store0.
Proof.
  assert (points_to store0 [0; 1] (take 2 store0)) as Ha
    by (repeat constructor).
  assert (points_to store0 [2; 3] (drop 2 store0)) as Hb
    by (repeat constructor).
  split; [exact Ha|]. split; [exact Hb|].
  rewrite (proj1 (union_combinability (Ext := demo) _ _ _ _ state0 _ Ha Hb)).
  vm_compute. reflexivity.
Defined.

Lemma union_body_Some (ra rb : Result) (u : Union) :
  union_body ra rb = Some u →
  A u = RValue ra ∧ B u = RValue rb
  ∧ UComputations u = Computations ra ++ Computations rb
  ∧ UGroup u =
      if Equal (Group ra) (Group rb) || bool_decide (len (Group ra) = 0)
         || bool_decide (len (Group rb) = 0)
      then if bool_decide (len (Group ra) = 0) then Group rb else Group ra
      else if Subset (Group ra) (Group rb) then Group ra else Group rb.
Proof.
  unfold union_body.
  destruct (Equal (Group ra) (Group rb) || bool_decide (len (Group ra) = 0)
            || bool_decide (len (Group rb) = 0)).
  { intros [= <-]. done. }
  destruct (Subset (Group ra) (Group rb)).
  { intros [= <-]. done. }
  destruct (Subset (Group rb) (Group ra)); [|done].
  intros [= <-]. done.
Qed.

Lemma union_pair `{Ext : External} (la lb : loc) (ra rb : Result) s h :
  h !! la = Some ra →
  h !! lb = Some rb →
  union [la] [lb] s h = Done (option_list (union_body ra rb)) s h.
Proof.
  intros Ha Hb.
  rewrite (union_run [la] [ra] [lb] [rb]) by (by repeat constructor).
  simpl. by destruct (union_body ra rb).
Qed.

(** C2.  The [Union] that [union] emits for a pair (ra, rb) takes the other
    side's group when one side's group is empty, takes the superset when
    both groups are non-empty and one is strictly contained in the other,
    and carries the computations of [ra] followed by those of [rb]. *)
Theorem union_group_resolution `{Ext : External} (la lb : loc) (ra rb : Result)
    (u : Union) (s : state) (h : store) :
  h !! la = Some ra →
  h !! lb = Some rb →
  union [la] [lb] s h = Done [u] s h →
  (Group ra = ∅ → UGroup u = Group rb)
  ∧ (Group rb = ∅ → UGroup u = Group ra)
  ∧ (Group ra ≠ ∅ → Group rb ≠ ∅ → Group ra ⊂ Group rb → UGroup u = Group rb)
  ∧ (Group ra ≠ ∅ → Group rb ≠ ∅ → Group rb ⊂ Group ra → UGroup u = Group ra)
  ∧ UComputations u = Computations ra ++ Computations rb
  ∧ A u = RValue ra ∧ B u = RValue rb.
Proof.
  intros Hla Hlb. rewrite (union_pair _ _ _ _ _ _ Hla Hlb). intros Hu.
  destruct (union_body ra rb) as [u'|] eqn:Hb; [|done].
  injection Hu as ->.
  apply union_body_Some in Hb as (HA & HB & HC & HG).
  repeat split; try done.
  - intros Ha. apply len_zero in Ha as Ha'. rewrite HG, Ha'.
    by rewrite orb_true_r.
  - intros Hrb. apply len_zero in Hrb as Hrb'. rewrite HG, Hrb'.
    rewrite orb_true_r.
    destruct (bool_decide (len (Group ra) = 0)) eqn:Ha; [|done].
    apply len_zero in Ha. congruence.
  - intros Ha Hrb [Hsub Hnsub]. rewrite HG.
    assert (Equal (Group ra) (Group rb) = false) as ->.
    { apply not_true_is_false. rewrite Equal_spec. intros E.
      apply Hnsub. by rewrite E. }
    assert (bool_decide (len (Group ra) = 0) = false) as ->.
    { apply not_true_is_false. by rewrite len_zero. }
    assert (bool_decide (len (Group rb) = 0) = false) as ->.
    { apply not_true_is_false. by rewrite len_zero. }
    assert (Subset (Group ra) (Group rb) = false) as ->.
    { apply not_true_is_false. by rewrite Subset_spec. }
    done.
  - intros Ha Hrb [Hsub Hnsub]. rewrite HG.
    assert (Equal (Group ra) (Group rb) = false) as ->.
    { apply not_true_is_false. rewrite Equal_spec. intros E.
      apply Hnsub. by rewrite E. }
    assert (bool_decide (len (Group ra) = 0) = false) as ->.
    { apply not_true_is_false. by rewrite len_zero. }
    assert (bool_decide (len (Group rb) = 0) = false) as ->.
    { apply not_true_is_false. by rewrite len_zero. }
    assert (Subset (Group ra) (Group rb) = true) as ->.
    { by rewrite Subset_spec. }
    done.
Qed.

Lemma union_group_resolution_witness :
  store0 !! 1 = Some (mkResult [mkComputation "y" 5] (Number 5) host_a_prod)
  ∧ store0 !! 0 = Some (mkResult [mkComputation "x" 1] (Number 1) host_a)
  ∧ union (Ext := demo) [1] [0] state0 store0
    = Done [ mkUnion [mkComputation "y" 5; mkComputation "x" 1]
                     (Number 5) (Number 1) host_a_prod ] state0 store0
  ∧ host_a_prod ≠ ∅ ∧ host_a ≠ ∅ ∧ host_a ⊂ host_a_prod
  ∧ UGroup (mkUnion [mkComputation "y" 5; mkComputation "x" 1]
                    (Number 5) (Number 1) host_a_prod) = host_a_prod.
Proof.
  assert (union (Ext := demo) [1] [0] state0 store0
    = Done [ mkUnion [mkComputation "y" 5; mkComputation "x" 1]
                     (Number 5) (Number 1) host_a_prod ] state0 store0) as Hu
    by (vm_compute; reflexivity).
  assert (host_a_prod ≠ ∅) as Hap.
  { intros E. apply len_zero in E. vm_compute in E. discriminate. }
  assert (host_a ≠ ∅) as Ha.
  { intros E. apply len_zero in E. vm_compute in E. discriminate. }
  assert (host_a ⊂ host_a_prod) as Hsub.
  { split.
    - apply Subset_spec. vm_compute. reflexivity.
    - intros E. apply Subset_spec in E. vm_compute in E. discriminate. }
  split; [reflexivity|]. split; [reflexivity|]. split; [exact Hu|].
  split; [exact Hap|]. split; [exact Ha|]. split; [exact Hsub|].
  exact (proj1 (proj2 (proj2 (proj2
    (union_group_resolution (Ext := demo) 1 0 _ _ _ state0 store0
       eq_refl eq_refl Hu)))) Hap Ha Hsub).
Defined.

(** ** Binary64 facts *)

(** The four classes of a [float64], with the shape of its specification. *)
Lemma Prim2SF_cases (a : float64) :
  (is_nan a = true ∧ Prim2SF a = S754_nan)
  ∨ (is_nan a = false ∧ is_zero a = true ∧ is_infinity a = false
     ∧ Prim2SF a = S754_zero (get_sign a))
  ∨ (is_nan a = false ∧ is_zero a = false ∧ is_infinity a = true
     ∧ Prim2SF a = S754_infinity (get_sign a))
  ∨ (is_nan a = false ∧ is_zero a = false ∧ is_infinity a = false
     ∧ ∃ m e, Prim2SF a = S754_finite (get_sign a) m e).
Proof.
  assert (is_zero a = SFeqb (Prim2SF a) (S754_zero false)) as Hz.
  { unfold is_zero. by rewrite FloatAxioms.eqb_spec. }
  assert (is_infinity a = SFeqb (SFabs (Prim2SF a)) (S754_infinity false)) as Hi.
  { unfold is_infinity. by rewrite FloatAxioms.eqb_spec, abs_spec. }
  revert Hz Hi. unfold Prim2SF.
  destruct (is_nan a); [by left|].
  destruct (is_zero a).
  { intros _ Hi. right. left. by rewrite Hi. }
  destruct (is_infinity a).
  { intros _ _. right. right. left. done. }
  destruct (Z.frexp a) as [r exp].
  destruct (shr_fexp _ _ _ _ _) as [shr e'].
  destruct (shr_m shr) as [|p|p]; intros Hz Hi; try discriminate.
  right. right. right. eauto 8.
Qed.

Lemma is_zero_Prim2SF (b : float64) :
  is_zero b = true → Prim2SF b = S754_zero (get_sign b).
Proof.
  intros Hb. destruct (Prim2SF_cases b) as [[Hn E]|[(_&_&_&E)|[(_&?&_)|(_&?&_)]]];
    try congruence.
  unfold is_zero in Hb. rewrite FloatAxioms.eqb_spec, E in Hb. discriminate.
Qed.

Lemma SF2Prim_infinity (s : bool) :
  SF2Prim (S754_infinity s) = if s then neg_infinity else infinity.
Proof. by destruct s. Qed.

(** Division by a zero: NaN for a zero or NaN dividend, otherwise the
    infinity whose sign is the exclusive or of the two signs. *)
Lemma div_by_zero (a b : float64) :
  is_zero b = true →
  (a / b)%float =
    if is_nan a || is_zero a then nan
    else if xorb (get_sign a) (get_sign b) then neg_infinity else infinity.
Proof.
  intros Hb. apply is_zero_Prim2SF in Hb.
  rewrite <- (SF2Prim_Prim2SF (a / b)), div_spec, Hb.
  destruct (Prim2SF_cases a)
    as [[-> ->]|[(-> & -> & _ & ->)|[(-> & -> & _ & ->)|(-> & -> & _ & m & e & ->)]]];
    simpl; try done; apply SF2Prim_infinity.
Qed.

Lemma SFcompare_swap (x y : spec_float) :
  SFcompare y x = CompOpp <$> SFcompare x y.
Proof.
  destruct x as [[]|[]| |[] m1 e1], y as [[]|[]| |[] m2 e2]; simpl; try done.
  all: rewrite (Z.compare_antisym e2 e1).
  all: destruct (e2 ?= e1)%Z; simpl; try done.
  all: change (Pos.compare_cont Eq m2 m1) with (m2 ?= m1)%positive.
  all: change (Pos.compare_cont Eq m1 m2) with (m1 ?= m2)%positive.
  all: by rewrite (Pos.compare_antisym m1 m2), ?CompOpp_involutive.
Qed.

(** ** The operator table *)

Lemma operate_unknown (op : string) (a b : float64) :
  op ∉ binary_ops →
  operate op a b = Panic (PanicError (Errorf ("expr: unknown operator " ++ op)%string)).
Proof.
  intros Hop. unfold operate.
  repeat case_match; try reflexivity; subst; exfalso; apply Hop;
    apply list_elem_of_In; simpl; tauto.
Qed.

Lemma operate_comparison (op : string) (a b : float64) :
  op ∈ comparison_ops →
  operate op a b
  = Ok (if comparison_holds op (ieee_compare a b) then 1 else 0)%float.
Proof.
  unfold comparison_ops, ieee_compare. rewrite !elem_of_cons, elem_of_nil.
  intros [->|[->|[->|[->|[->|[->|[]]]]]]]; unfold operate, of_bool;
    rewrite ?FloatAxioms.eqb_spec, ?ltb_spec, ?leb_spec;
    unfold SFeqb, SFltb, SFleb;
    rewrite ?(SFcompare_swap (Prim2SF a) (Prim2SF b));
    by destruct (SFcompare (Prim2SF a) (Prim2SF b)) as [[]|].
Qed.

(** C5.  [operate] computes [+ - * /] as binary64 arithmetic
    and never raises an error for them; dividing by a zero gives NaN when the
    dividend is a zero or NaN and otherwise the infinity whose sign is the
    exclusive or of the operands' signs; each comparison yields exactly 1
    when it holds and exactly 0 otherwise; [||] and [&&] treat every operand
    that is not a zero as true and yield exactly 1 or 0; any other operator
    token raises the unknown-operator failure. *)
Theorem operate_table (a b : float64) :
  (operate "+" a b = Ok (a + b)%float
   ∧ Prim2SF (a + b) = SF64add (Prim2SF a) (Prim2SF b))
  ∧ (operate "-" a b = Ok (a - b)%float
     ∧ Prim2SF (a - b) = SF64sub (Prim2SF a) (Prim2SF b))
  ∧ (operate "*" a b = Ok (a * b)%float
     ∧ Prim2SF (a * b) = SF64mul (Prim2SF a) (Prim2SF b))
  ∧ (operate "/" a b = Ok (a / b)%float
     ∧ Prim2SF (a / b) = SF64div (Prim2SF a) (Prim2SF b))
  ∧ (is_zero b = true →
     (a / b)%float =
       if is_nan a || is_zero a then nan
       else if xorb (get_sign a) (get_sign b) then neg_infinity else infinity)
  ∧ (∀ op, op ∈ comparison_ops →
       operate op a b
       = Ok (if comparison_holds op (ieee_compare a b) then 1 else 0)%float)
  ∧ operate "||" a b = Ok (if truthy a || truthy b then 1 else 0)%float
  ∧ operate "&&" a b = Ok (if truthy a && truthy b then 1 else 0)%float
  ∧ (∀ op, op ∉ binary_ops →
       operate op a b
       = Panic (PanicError (Errorf ("expr: unknown operator " ++ op)%string))).
Proof.
  split; [split; [done | apply add_spec]|].
  split; [split; [done | apply sub_spec]|].
  split; [split; [done | apply mul_spec]|].
  split; [split; [done | apply div_spec]|].
  split; [apply div_by_zero|].
  split; [intros op; apply operate_comparison|].
  split; [done|]. split; [done|].
  intros op. apply operate_unknown.
Qed.

(** The division clause fails for a NaN dividend: NaN / 0 is NaN, which is
    neither an infinity nor the quotient of two zeros. *)
Lemma division_by_zero_law_nan : ¬ division_by_zero_law nan 0.
Proof.
  unfold division_by_zero_law. intros Hlaw.
  destruct (Hlaw eq_refl) as (r & Hr & Hinf).
  injection Hr as <-. vm_compute in Hinf. discriminate.
Qed.

(** ** Loops over a series *)

Lemma series_map_Ok (f : float64 → fallible float64) (g : float64 → float64)
    (bt : gmap string Point) :
  (∀ k y, bt !! k = Some y → f y = Ok (g y)) →
  series_map f bt = Ok (g <$> bt).
Proof.
  unfold series_map.
  apply (map_fold_weak_ind
    (λ r m, (∀ k y, m !! k = Some y → f y = Ok (g y)) → r = Ok (g <$> m))).
  - intros _. by rewrite fmap_empty.
  - intros i x m r Hi IH Hf.
    rewrite IH.
    + simpl. rewrite (Hf i x) by apply lookup_insert_eq. simpl.
      by rewrite fmap_insert.
    + intros k y Hk. apply (Hf k). rewrite lookup_insert_ne; [done|].
      intros ->. congruence.
Qed.

Lemma series_map_Panic (f : float64 → fallible float64) (p : panic_value)
    (bt : gmap string Point) :
  (∀ y, f y = Panic p) →
  bt ≠ ∅ →
  series_map f bt = Panic p.
Proof.
  intros Hf Hbt.
  cut (bt = ∅ ∧ series_map f bt = Ok ∅ ∨ bt ≠ ∅ ∧ series_map f bt = Panic p).
  { intros [[? _]|[_ ?]]; done. }
  unfold series_map.
  clear Hbt.
  apply (map_fold_weak_ind
    (λ r m, (m = ∅ ∧ r = Ok ∅) ∨ (m ≠ ∅ ∧ r = Panic p))); [by left|].
  intros i x m r Hi IH. right. split; [apply insert_non_empty|].
  destruct IH as [[_ ->]|[_ ->]]; simpl; [|done].
  by rewrite Hf.
Qed.

Lemma operate_known (op : string) (a b : float64) :
  op ∈ binary_ops → ∃ r, operate op a b = Ok r.
Proof.
  unfold binary_ops. rewrite !elem_of_cons, elem_of_nil.
  intros H. repeat destruct H as [->|H]; try done; simpl; eauto.
Qed.

Lemma series_map_operate (f : float64 → fallible float64) (ser : gmap string Point) :
  (∀ y, ∃ r, f y = Ok r) →
  ∃ s, series_map f ser = Ok s ∧ ∀ k, Ok <$> s !! k = f <$> ser !! k.
Proof.
  intros Hf.
  set (g := λ y, match f y with Ok r => r | Panic _ => 0%float end).
  assert (∀ y, f y = Ok (g y)) as Hg.
  { intros y. unfold g. by destruct (Hf y) as [r ->]. }
  exists (g <$> ser). split.
  - apply series_map_Ok. auto.
  - intros k. rewrite lookup_fmap. destruct (ser !! k); simpl; [|done].
    by rewrite Hg.
Qed.

(** C4.  For a recognised operator, a union of a Series with a Scalar or
    Number yields a Series on exactly the timestamps of the Series operand;
    each sample is the operator applied with the left operand's value on the
    left and the right operand's on the right; the union's group and
    computations are carried over unchanged. *)
Theorem walkBinary_broadcast `{Ext : External} (OpStr text : string) (v : Union)
    (x : float64) (ser : gmap string Point) :
  OpStr ∈ binary_ops →
  ((A v = Scalar x ∨ A v = Number x) ∧ B v = Series ser →
   ∃ s, walkBinary_body OpStr text v
        = Ok (mkResult (UComputations v) (Series s) (UGroup v))
      ∧ ∀ k, Ok <$> s !! k = (λ y, operate OpStr x y) <$> ser !! k)
  ∧ (A v = Series ser ∧ (B v = Scalar x ∨ B v = Number x) →
     ∃ s, walkBinary_body OpStr text v
          = Ok (mkResult (UComputations v) (Series s) (UGroup v))
        ∧ ∀ k, Ok <$> s !! k = (λ y, operate OpStr y x) <$> ser !! k).
Proof.
  intros Hop. split.
  - intros [HA HB].
    destruct (series_map_operate (λ y, operate OpStr x y) ser) as (s & Hs & Hk).
    { intros y. by apply operate_known. }
    exists s. split; [|done].
    unfold walkBinary_body. rewrite HB.
    destruct HA as [-> | ->]; by rewrite Hs.
  - intros [HA HB].
    destruct (series_map_operate (λ y, operate OpStr y x) ser) as (s & Hs & Hk).
    { intros y. by apply operate_known. }
    exists s. split; [|done].
    unfold walkBinary_body. rewrite HA.
    destruct HB as [-> | ->]; by rewrite Hs.
Qed.

(** ** Argument extraction *)

(** C6.  [extractScalar] yields the bare float of a one-element slice whose
    element is a Scalar, and the slice itself, unchanged, for a one-element
    slice whose element is not a Scalar and for a slice of any other
    length; it leaves the store as it is. *)
Theorem extractScalar_rule `{Ext : External} (res : list loc) (s : state) (h : store) :
  (∀ r0 v f, res = [r0] → h !! r0 = Some v → RValue v = Scalar f →
     extractScalar res s h = Done (AFloat64 f) s h)
  ∧ (∀ r0 v, res = [r0] → h !! r0 = Some v → (∀ f, RValue v ≠ Scalar f) →
     extractScalar res s h = Done (AResults res) s h)
  ∧ (length res ≠ 1 → extractScalar res s h = Done (AResults res) s h).
Proof.
  split; [|split].
  - intros r0 v f -> Hr Hv. unfold extractScalar.
    rewrite run_bind, (run_load _ _ _ _ Hr), Hv. done.
  - intros r0 v -> Hr Hv. unfold extractScalar.
    rewrite run_bind, (run_load _ _ _ _ Hr).
    destruct (RValue v) as [f| |]; [by destruct (Hv f)|done|done].
  - intros Hlen. by destruct res as [|? [|? ?]].
Qed.

Lemma walkBinary_broadcast_witness :
  "-" ∈ binary_ops
  ∧ ((A union_bcast = Scalar 10 ∨ A union_bcast = Number 10)
     ∧ B union_bcast = Series (<[ "t2" := 4%float ]> {[ "t1" := 1%float ]}))
  ∧ ∃ s, walkBinary_body (Ext := demo) "-" "10 - q" union_bcast
         = Ok (mkResult [mkComputation "x" 1] (Series s) host_a)
       ∧ ∀ k, Ok <$> s !! k
              = (λ y, operate "-" 10 y)
                  <$> (<[ "t2" := 4%float ]> {[ "t1" := 1%float ]} : gmap string Point) !! k.
Proof.
  assert ("-" ∈ binary_ops) as Hop by (apply list_elem_of_In; simpl; tauto).
  assert ((A union_bcast = Scalar 10 ∨ A union_bcast = Number 10)
          ∧ B union_bcast = Series (<[ "t2" := 4%float ]> {[ "t1" := 1%float ]}))
    as Hv by (split; [left|]; reflexivity).
  split; [exact Hop|]. split; [exact Hv|].
  exact (proj1 (walkBinary_broadcast (Ext := demo) "-" "10 - q" union_bcast 10 _ Hop) Hv).
Defined.

Example walkBinary_broadcast_order :
  walkBinary_body (Ext := demo) "-" "10 - q" union_bcast
  = Ok (mkResult [mkComputation "x" 1]
          (Series (<[ "t2" := 6%float ]> {[ "t1" := 9%float ]})) host_a).
Proof. vm_compute. reflexivity. Qed.

(** ** Encoding of numbers *)

Lemma digits2_pos_bound (m : positive) :
  (Z.pos m < 2 ^ Z.pos (digits2_pos m))%Z.
Proof.
  induction m as [m IH|m IH|]; cbn [digits2_pos]; [| |done].
  - rewrite Pos2Z.inj_succ, Z.pow_succ_r by lia. lia.
  - rewrite Pos2Z.inj_succ, Z.pow_succ_r by lia. lia.
Qed.

(** A valid finite binary64 has a mantissa below 2^53 and an exponent of at
    most 971. *)
Lemma valid_finite_bounds (s : bool) (m : positive) (e : Z) :
  valid_binary (S754_finite s m e) = true →
  (Z.pos m ≤ 9007199254740991)%Z ∧ (e ≤ 971)%Z.
Proof.
  unfold SpecFloat.valid_binary, bounded, canonical_mantissa, fexp, emin.
  intros Hv. apply andb_prop in Hv as [Hc He].
  apply Z.eqb_eq in Hc. apply Z.leb_le in He.
  change emax with 1024%Z in *. change prec with 53%Z in *.
  split; [|lia].
  assert (Z.pos (digits2_pos m) ≤ 53)%Z as Hd by lia.
  pose proof (digits2_pos_bound m) as Hm.
  assert (2 ^ Z.pos (digits2_pos m) ≤ 2 ^ 53)%Z as Hp
    by (apply Z.pow_le_mono_r; lia).
  assert (2 ^ 53 = 9007199254740992)%Z as E53 by (vm_compute; reflexivity).
  rewrite E53 in Hp. lia.
Qed.

Lemma Prim2SF_MaxFloat64 :
  Prim2SF MaxFloat64 = S754_finite false 9007199254740991 971.
Proof. vm_compute. reflexivity. Qed.

Lemma Prim2SF_neg_MaxFloat64 :
  Prim2SF (- MaxFloat64) = S754_finite true 9007199254740991 971.
Proof. vm_compute. reflexivity. Qed.

Lemma compare_cont_Eq (x y : positive) :
  Pos.compare_cont Eq x y = Pos.compare x y.
Proof. reflexivity. Qed.

Lemma SFltb_max_finite (sg : bool) (m : positive) (e : Z) :
  (Z.pos m ≤ 9007199254740991)%Z → (e ≤ 971)%Z →
  SFltb (S754_finite false 9007199254740991 971) (S754_finite sg m e) = false.
Proof.
  intros Hm He. unfold SFltb, SFcompare.
  destruct sg; [reflexivity|].
  destruct (Z.compare_spec 971 e) as [_|Hc|_]; [|exfalso; lia|reflexivity].
  rewrite compare_cont_Eq.
  destruct (Pos.compare_spec 9007199254740991%positive m) as [_|Hc|_];
    [reflexivity|exfalso; lia|reflexivity].
Qed.

Lemma SFltb_finite_min (sg : bool) (m : positive) (e : Z) :
  (Z.pos m ≤ 9007199254740991)%Z → (e ≤ 971)%Z →
  SFltb (S754_finite sg m e) (S754_finite true 9007199254740991 971) = false.
Proof.
  intros Hm He. unfold SFltb, SFcompare.
  destruct sg; [|reflexivity].
  destruct (Z.compare_spec e 971) as [_|_|Hc]; [|reflexivity|exfalso; lia].
  rewrite compare_cont_Eq.
  destruct (Pos.compare_spec m 9007199254740991%positive) as [_|_|Hc];
    [reflexivity|reflexivity|exfalso; lia].
Qed.

(** A finite float lies between [-MaxFloat64] and [MaxFloat64]. *)
Lemma finite_within_MaxFloat64 (n : float64) :
  is_finite n = true →
  (MaxFloat64 <? n)%float = false ∧ (n <? - MaxFloat64)%float = false.
Proof.
  unfold is_finite. intros Hf. apply negb_true_iff, orb_false_iff in Hf as [Hn Hi].
  rewrite !ltb_spec, Prim2SF_MaxFloat64, Prim2SF_neg_MaxFloat64.
  pose proof (Prim2SF_valid n) as Hv.
  destruct (Prim2SF_cases n)
    as [[? _]|[(_ & _ & _ & E)|[(_ & _ & ? & _)|(_ & _ & _ & m & e & E)]]];
    try congruence; rewrite E in Hv |- *.
  - by destruct (get_sign n).
  - destruct (valid_finite_bounds _ _ _ Hv) as [Hm He].
    split; [exact (SFltb_max_finite _ _ _ Hm He) | exact (SFltb_finite_min _ _ _ Hm He)].
Qed.

(** Every float is NaN, one of the two infinities, or finite. *)
Lemma float64_classes (n : float64) :
  is_nan n = true ∨ n = infinity ∨ n = neg_infinity ∨ is_finite n = true.
Proof.
  destruct (Prim2SF_cases n)
    as [[Hn _]|[(Hn & _ & Hi & _)|[(_ & _ & _ & E)|(Hn & _ & Hi & _)]]].
  - by left.
  - right. right. right. unfold is_finite. by rewrite Hn, Hi.
  - right. rewrite <- (SF2Prim_Prim2SF n), E, SF2Prim_infinity.
    destruct (get_sign n); auto.
  - right. right. right. unfold is_finite. by rewrite Hn, Hi.
Qed.

(** C10.  [marshalFloat], which [Scalar.MarshalJSON] and
    [Number.MarshalJSON] call on the wrapped float, yields the JSON string
    "NaN" for NaN, "+Inf" for positive infinity, "-Inf" for negative
    infinity, and for a finite float the plain numeric literal of that same
    value; these four cases cover every float, and no case is an error. *)
Theorem marshalFloat_cases (n : float64) :
  MarshalJSON (Scalar n) = Some (marshalFloat n)
  ∧ MarshalJSON (Number n) = Some (marshalFloat n)
  ∧ (is_nan n = true → marshalFloat n = inl (JString "NaN"))
  ∧ (n = infinity → marshalFloat n = inl (JString "+Inf"))
  ∧ (n = neg_infinity → marshalFloat n = inl (JString "-Inf"))
  ∧ (is_finite n = true → marshalFloat n = inl (JNumber n))
  ∧ (is_nan n = true ∨ n = infinity ∨ n = neg_infinity ∨ is_finite n = true).
Proof.
  split; [done|]. split; [done|].
  split; [|split; [|split; [|split]]].
  - intros Hn. unfold marshalFloat, IsNaN. fold (is_nan n). by rewrite Hn.
  - intros ->. vm_compute. reflexivity.
  - intros ->. vm_compute. reflexivity.
  - intros Hf. unfold marshalFloat, IsNaN, IsInf, json_Marshal_float64.
    fold (is_nan n).
    destruct (finite_within_MaxFloat64 n Hf) as [-> ->].
    rewrite Hf. unfold is_finite in Hf.
    apply negb_true_iff, orb_false_iff in Hf as [-> _].
    by rewrite !andb_false_r.
  - apply float64_classes.
Qed.

Example marshalFloat_one_half :
  marshalFloat 1.5 = inl (JNumber 1.5)
  ∧ marshalFloat (0 / 0) = inl (JString "NaN")
  ∧ marshalFloat (-1 / 0) = inl (JString "-Inf").
Proof. vm_compute. done. Qed.

(** ** Loops that write through the pointers of a slice *)

Lemma updated_cons (g : Result → Result) (r : loc) (a : list loc) (h : store) :
  updated g (r :: a) h = updated g a (alter g r h).
Proof. reflexivity. Qed.

Lemma occurrences_cons (r x : loc) (a : list loc) :
  occurrences r (x :: a) = if decide (x = r) then S (occurrences r a) else occurrences r a.
Proof.
  unfold occurrences. rewrite filter_cons. by case_decide.
Qed.

(** A location of the updated store holds the old record with [g] applied
    once per occurrence of the location in the slice. *)
Lemma updated_lookup (g : Result → Result) (a : list loc) (h : store) (r : loc) :
  updated g a h !! r = Nat.iter (occurrences r a) g <$> h !! r.
Proof.
  revert h. induction a as [|x a IH]; intros h.
  - simpl. by destruct (h !! r).
  - rewrite updated_cons, IH, occurrences_cons, list_lookup_alter.
    case_decide as Hx; [subst x|done].
    destruct (h !! r) as [v|]; simpl; [|done].
    by rewrite <- Nat.iter_succ_r.
Qed.

Lemma updated_length (g : Result → Result) (a : list loc) (h : store) :
  length (updated g a h) = length h.
Proof.
  revert h. induction a as [|x a IH]; intros h; [done|].
  by rewrite updated_cons, IH, length_alter.
Qed.

Lemma for_range_updated `{Ext : External} (body : loc → M unit)
    (g : Result → Result) (ok : Result → Prop) :
  (∀ r v s h, h !! r = Some v → ok v → body r s h = Done () s (alter g r h)) →
  (∀ v, ok v → ok (g v)) →
  ∀ a s h,
    Forall (λ r, ∃ v, h !! r = Some v ∧ ok v) a →
    for_range a body s h = Done () s (updated g a h).
Proof.
  intros Hbody Hok a s. induction a as [|r a IH]; intros h Ha; [done|].
  apply Forall_cons in Ha as [(v & Hr & Hv) Ha].
  rewrite updated_cons. cbn [for_range].
  rewrite run_bind, (Hbody _ _ _ _ Hr Hv).
  apply IH. eapply Forall_impl; [exact Ha|].
  intros r' (v' & Hr' & Hv'). rewrite list_lookup_alter.
  case_decide; [subst r'|eauto].
  rewrite Hr. simpl. eauto.
Qed.

(** ** Unary operators *)

Lemma uoperate_known (OpStr : string) (a : float64) :
  OpStr ∈ unary_ops → uoperate OpStr a = Ok (unary_fn OpStr a).
Proof.
  unfold unary_ops. rewrite !elem_of_cons, elem_of_nil.
  intros [->|[->|[]]]; reflexivity.
Qed.

(** One iteration of the loop of [walkUnary] rewrites the [Value] of the
    record and nothing else. *)
Lemma walkUnary_body_run `{Ext : External} (OpStr : string) (r : loc) (v : Result)
    (s : state) (h : store) :
  OpStr ∈ unary_ops →
  h !! r = Some v →
  walkUnary_body OpStr r s h
  = Done () s (alter (λ v, setValue v (map_Value (unary_fn OpStr) (RValue v))) r h).
Proof.
  intros Hop Hr. unfold walkUnary_body.
  rewrite run_bind, (run_load _ _ _ _ Hr).
  assert (∀ x : Result,
    x = setValue v (map_Value (unary_fn OpStr) (RValue v)) →
    <[r := x]> h
    = alter (λ v, setValue v (map_Value (unary_fn OpStr) (RValue v))) r h) as Hsave.
  { intros x ->. apply list_eq. intros i.
    rewrite list_lookup_insert, list_lookup_alter.
    case_decide as Hi; case_decide as Hj; try done.
    - destruct Hi as [-> _]. by rewrite Hr.
    - destruct Hi as [-> _]. done.
    - subst i. rewrite Hr. simpl.
      exfalso. apply Hi. split; [done|]. by eapply lookup_lt_Some. }
  destruct (RValue v) as [rt|rt|rt] eqn:Hv; simpl.
  - rewrite run_bind, (uoperate_known _ _ Hop). simpl.
    unfold save. f_equal. by apply Hsave.
  - rewrite run_bind, (uoperate_known _ _ Hop). simpl.
    unfold save. f_equal. by apply Hsave.
  - rewrite run_bind.
    rewrite (series_map_Ok (uoperate OpStr) (unary_fn OpStr))
      by (intros; by apply uoperate_known).
    simpl. unfold save. f_equal. by apply Hsave.
Qed.

Lemma iter_setValue (f : Value → Value) (n : nat) (v : Result) :
  Nat.iter n (λ v, setValue v (f (RValue v))) v
  = setValue v (Nat.iter n f (RValue v)).
Proof.
  induction n as [|n IH]; simpl.
  - by destruct v.
  - by rewrite IH.
Qed.

(** C8.  For a recognised unary operator, evaluating a UnaryOp node returns
    the slice of its argument and rewrites, through each pointer of that
    slice in turn, the [Value] of the record with the operator applied to
    the float or to every sample; in the resulting store every record keeps
    its [Group] and its [Computations], and a record the slice does not
    point to keeps its [Value] too. *)
Theorem walkUnary_in_place `{Ext : External} `{Pr : !Printer} (OpStr : string)
    (Arg : Node) (T : Timer) (s s1 : state) (h h1 : store) (a : list loc) :
  OpStr ∈ unary_ops →
  walk Arg T s h = Done a s1 h1 →
  Forall (λ r, is_Some (h1 !! r)) a →
  ∃ h2, walk (UnaryNode OpStr Arg) T s h = Done a s1 h2
    ∧ ∀ r, Group <$> h2 !! r = Group <$> h1 !! r
         ∧ Computations <$> h2 !! r = Computations <$> h1 !! r
         ∧ RValue <$> h2 !! r
           = Nat.iter (occurrences r a) (map_Value (unary_fn OpStr))
               <$> (RValue <$> h1 !! r).
Proof.
  intros Hop Hwalk Ha.
  set (g := λ v, setValue v (map_Value (unary_fn OpStr) (RValue v))).
  exists (updated g a h1). split.
  - change (walk (UnaryNode OpStr Arg) T) with (walkUnary_of walk OpStr Arg T).
    unfold walkUnary_of. rewrite run_bind, Hwalk, run_bind.
    assert (for_range a (walkUnary_body OpStr) s1 h1
            = Done () s1 (updated g a h1)) as ->; [|done].
    apply (for_range_updated (walkUnary_body OpStr) g (λ _, True)).
    + intros r v s' h' Hr _. by apply (walkUnary_body_run OpStr r v).
    + done.
    + eapply Forall_impl; [exact Ha|]. intros r [v Hr]. eauto.
  - intros r. rewrite updated_lookup. unfold g.
    destruct (h1 !! r) as [v|]; simpl; [|done].
    by rewrite iter_setValue.
Qed.

Lemma walkUnary_in_place_witness :
  "-" ∈ unary_ops
  ∧ walk (Ext := demo) (Pr := demo_printer) (NumberNode 3) 0 state0 store0
    = Done [4] state0 (store0 ++ [mkResult [] (Scalar 3) ∅])
  ∧ Forall (λ r, is_Some ((store0 ++ [mkResult [] (Scalar 3) ∅]) !! r)) [4]
  ∧ ∃ h2, walk (Ext := demo) (Pr := demo_printer)
            (UnaryNode "-" (NumberNode 3)) 0 state0 store0
          = Done [4] state0 h2
    ∧ ∀ r, Group <$> h2 !! r = Group <$> (store0 ++ [mkResult [] (Scalar 3) ∅]) !! r
         ∧ Computations <$> h2 !! r
           = Computations <$> (store0 ++ [mkResult [] (Scalar 3) ∅]) !! r
         ∧ RValue <$> h2 !! r
           = Nat.iter (occurrences r [4]) (map_Value (unary_fn "-"))
               <$> (RValue <$> (store0 ++ [mkResult [] (Scalar 3) ∅]) !! r).
Proof.
  assert ("-" ∈ unary_ops) as Hop by (apply list_elem_of_In; simpl; tauto).
  assert (Forall (λ r, is_Some ((store0 ++ [mkResult [] (Scalar 3) ∅]) !! r)) [4])
    as Ha by (repeat constructor; eexists; reflexivity).
  split; [exact Hop|]. split; [reflexivity|]. split; [exact Ha|].
  exact (walkUnary_in_place (Ext := demo) (Pr := demo_printer)
           "-" (NumberNode 3) 0 state0 state0 store0 _ [4] Hop eq_refl Ha).
Defined.

Example walkUnary_negates :
  walk (Ext := demo) (Pr := demo_printer)
    (UnaryNode "-" (NumberNode 3)) 0 state0 store0
  = Done [4] state0 (store0 ++ [mkResult [] (Scalar (-3)) ∅]).
Proof. vm_compute. reflexivity. Qed.

(** ** Execute and panics *)

Lemma Execute_Done `{Ext : External} `{Pr : !Printer} (e : Expr) (c : Context)
    (T : option Timer) (h : store) (r : list loc) (s' : state) (h' : store) :
  walk (Root e) (execute_timer T) (initial c) h = Done r s' h' →
  Execute e c T h = Returned r (queries s') None h'.
Proof.
  unfold Execute, execute_timer, initial. by intros ->.
Qed.

Lemma Execute_Panicked `{Ext : External} `{Pr : !Printer} (e : Expr) (c : Context)
    (T : option Timer) (h : store) (p : panic_value) (s' : state) (h' : store) :
  walk (Root e) (execute_timer T) (initial c) h = Panicked p s' h' →
  Execute e c T h = match errRecover p with
                    | Recovered err => Returned [] [] (Some err) h'
                    | Repanicked p => Crashed p
                    end.
Proof.
  unfold Execute, execute_timer, initial. by intros ->.
Qed.

(** ** Function calls declared to return a Number *)









Example Execute_count :
  Execute (Ext := demo) (Pr := demo_printer) (mkExpr call_count) tt None []
  = Returned [0] [] None [mkResult [mkComputation "count()" 2] (Number 2) host_a].
Proof. vm_compute. reflexivity. Qed.

Example Execute_broken :
  Execute (Ext := demo) (Pr := demo_printer) (mkExpr call_broken) tt None []
  = Crashed (PanicError NumberAssertion).
Proof. vm_compute. reflexivity. Qed.

(** ** Domain failures *)

Lemma uoperate_unknown (op : string) (a : float64) :
  op ∉ unary_ops →
  uoperate op a = Panic (PanicError (Errorf ("expr: unknown operator " ++ op)%string)).
Proof.
  intros Hop. unfold uoperate.
  repeat case_match; try reflexivity; subst; exfalso; apply Hop;
    apply list_elem_of_In; simpl; tauto.
Qed.


Lemma walkFunc_error `{Ext : External} `{Pr : !Printer} (Name : string) (Fn : Func)
    (Args : list Node) (T : Timer) (s s1 s2 : state) (h h1 h2 : store)
    (in_ : list argument) (res : list loc) (err : error) :
  mapM (walkFunc_arg walk T) Args s h = Done in_ s1 h1 →
  F Fn T in_ s1 h1 = Done (res, Some err) s2 h2 →
  walk (FuncNode Name Fn Args) T s h = Panicked (PanicError err) s2 h2.
Proof.
  intros Hargs Hcall.
  change (walk (FuncNode Name Fn Args) T)
    with (walkFunc_of walk (FuncNode Name Fn Args) Fn Args T).
  unfold walkFunc_of. by rewrite run_bind, Hargs, run_bind, Hcall.
Qed.




Example same_series_fails :
  Execute (Ext := demo) (Pr := demo_printer) same_series tt None []
  = Returned [] [] (Some ErrUnknownOp) [series_of "a"; series_of "a"].
Proof. vm_compute. reflexivity. Qed.

Example builtin_error_is_returned :
  Execute (Ext := demo) (Pr := demo_printer) (mkExpr call_fail) tt None []
  = Returned [] [] (Some (Errorf "backend unreachable")) [].
Proof. vm_compute. reflexivity. Qed.

Example unknown_operator_is_returned :
  Execute (Ext := demo) (Pr := demo_printer)
    (mkExpr (BinaryNode "%" (NumberNode 1) (NumberNode 2))) tt None []
  = Returned [] [] (Some (Errorf "expr: unknown operator %")) 
      [mkResult [] (Scalar 1) ∅; mkResult [] (Scalar 2) ∅].
Proof. vm_compute. reflexivity. Qed.

(** ** The timer *)






Example Execute_scaled_series :
  Execute (Ext := demo) (Pr := demo_printer) scaled_series tt (Some 7) []
  = @Returned demo [2] ["a"] None
      [ mkResult [] (Series (<[ "t2" := (-4)%float ]> {[ "t1" := (-1)%float ]}))
                 {[ "host" := "a" ]};
        mkResult [] (Scalar 2) ∅;
        mkResult [] (Series (<[ "t2" := (-8)%float ]> {[ "t1" := (-2)%float ]}))
                 {[ "host" := "a" ]} ].
Proof. vm_compute. reflexivity. Qed.

(** * Further properties of the evaluator *)

(** ** Symmetry of the group join *)

Lemma union_body_swap (ra rb : Result) :
  match union_body ra rb, union_body rb ra with
  | Some u, Some u' =>
      UGroup u' = UGroup u ∧ A u' = B u ∧ B u' = A u
      ∧ UComputations u = Computations ra ++ Computations rb
      ∧ UComputations u' = Computations rb ++ Computations ra
  | None, None => True
  | _, _ => False
  end.
Proof.
  unfold union_body.
  destruct (Equal (Group ra) (Group rb)) eqn:Heq.
  { apply Equal_spec in Heq. rewrite Heq.
    assert (Equal (Group rb) (Group rb) = true) as -> by by apply Equal_spec.
    simpl. by destruct (bool_decide (len (Group rb) = 0)). }
  assert (Equal (Group rb) (Group ra) = false) as Hne.
  { apply not_true_is_false. intros H%Equal_spec.
    apply not_true_iff_false in Heq. apply Heq, Equal_spec. done. }
  rewrite Hne. cbn [orb].
  destruct (bool_decide (len (Group ra) = 0)) eqn:Ha;
    destruct (bool_decide (len (Group rb) = 0)) eqn:Hb; cbn [orb]; simpl.
  - apply len_zero in Ha, Hb. rewrite Ha, Hb. done.
  - done.
  - done.
  - destruct (Subset (Group ra) (Group rb)) eqn:Hab;
      destruct (Subset (Group rb) (Group ra)) eqn:Hba; simpl; try done.
    apply Subset_spec in Hab, Hba.
    apply not_true_iff_false in Heq. destruct Heq. apply Equal_spec.
    by apply (anti_symm (⊆)).
Qed.

(** X1.  Swapping the two operands of [union] changes neither which pair
    combines nor the group of the combined pair: only the two sides, and the
    order of the computations, are exchanged. *)
Theorem union_swap `{Ext : External} (la lb : loc) (ra rb : Result)
    (s : state) (h : store) :
  h !! la = Some ra →
  h !! lb = Some rb →
  ∃ us us', union [la] [lb] s h = Done us s h
    ∧ union [lb] [la] s h = Done us' s h
    ∧ UGroup <$> us' = UGroup <$> us
    ∧ A <$> us' = B <$> us ∧ B <$> us' = A <$> us
    ∧ UComputations <$> us = (λ _, Computations ra ++ Computations rb) <$> us
    ∧ UComputations <$> us' = (λ _, Computations rb ++ Computations ra) <$> us.
Proof.
  intros Ha Hb.
  exists (option_list (union_body ra rb)), (option_list (union_body rb ra)).
  rewrite (union_pair la lb ra rb), (union_pair lb la rb ra) by done.
  do 2 (split; [done|]).
  pose proof (union_body_swap ra rb) as H.
  destruct (union_body ra rb) as [u|], (union_body rb ra) as [u'|]; try done.
  destruct H as (H1 & H2 & H3 & H4 & H5). simpl. by rewrite H1, H2, H3, H4, H5.
Qed.

Lemma union_swap_witness :
  store0 !! 1 = Some (mkResult [mkComputation "y" 5] (Number 5) host_a_prod)
  ∧ store0 !! 0 = Some (mkResult [mkComputation "x" 1] (Number 1) host_a)
  ∧ ∃ us us', union (Ext := demo) [1] [0] state0 store0 = Done us state0 store0
    ∧ union (Ext := demo) [0] [1] state0 store0 = Done us' state0 store0
    ∧ UGroup <$> us' = UGroup <$> us
    ∧ A <$> us' = B <$> us ∧ B <$> us' = A <$> us
    ∧ UComputations <$> us = (λ _, [mkComputation "y" 5; mkComputation "x" 1]) <$> us
    ∧ UComputations <$> us' = (λ _, [mkComputation "x" 1; mkComputation "y" 5]) <$> us.
Proof.
  split; [reflexivity|]. split; [reflexivity|].
  apply (union_swap (Ext := demo) 1 0
           (mkResult [mkComputation "y" 5] (Number 5) host_a_prod)
           (mkResult [mkComputation "x" 1] (Number 1) host_a) state0 store0);
    reflexivity.
Defined.

(** ** The loop of [walkBinary] *)

Lemma walkBinary_loop_cons `{Ext : External} (OpStr text : string) (u : Union)
    (us : list Union) (res : list loc) (s : state) (h : store) :
  range_fold (u :: us) res (λ res v,
      r ← lift (walkBinary_body OpStr text v);
      p ← alloc r;
      mret (res ++ [p])) s h
  = match walkBinary_body OpStr text u with
    | Ok r =>
        range_fold us (res ++ [length h]) (λ res v,
          r ← lift (walkBinary_body OpStr text v);
          p ← alloc r;
          mret (res ++ [p])) s (h ++ [r])
    | Panic p => Panicked p s h
    end.
Proof.
  cbn [range_fold]. rewrite run_bind, run_bind. unfold lift at 1.
  by destruct (walkBinary_body OpStr text u).
Qed.

Lemma walkBinary_loop `{Ext : External} (OpStr text : string) (us : list Union)
    (res : list loc) (s : state) (h : store) :
  (∃ new, Forall2 (λ u r, walkBinary_body OpStr text u = Ok r) us new
     ∧ range_fold us res (λ res v,
         r ← lift (walkBinary_body OpStr text v);
         p ← alloc r;
         mret (res ++ [p])) s h
       = Done (res ++ seq (length h) (length new)) s (h ++ new))
  ∨ (∃ us1 u us2 new p, us = us1 ++ u :: us2
     ∧ Forall2 (λ u r, walkBinary_body OpStr text u = Ok r) us1 new
     ∧ walkBinary_body OpStr text u = Panic p
     ∧ range_fold us res (λ res v,
         r ← lift (walkBinary_body OpStr text v);
         p ← alloc r;
         mret (res ++ [p])) s h
       = Panicked p s (h ++ new)).
Proof.
  revert res h. induction us as [|u us IH]; intros res h.
  - left. exists []. split; [constructor|]. simpl. by rewrite !app_nil_r.
  - rewrite walkBinary_loop_cons.
    destruct (walkBinary_body OpStr text u) as [r|p] eqn:Hu.
    + destruct (IH (res ++ [length h]) (h ++ [r]))
        as [(new & Hnew & ->)|(us1 & u' & us2 & new & p & -> & Hnew & Hp & ->)].
      * left. exists (r :: new). split; [by constructor|].
        rewrite length_app, <- !app_assoc. simpl.
        by rewrite Nat.add_1_r.
      * right. exists (u :: us1), u', us2, (r :: new), p.
        split; [done|]. split; [by constructor|]. split; [done|].
        by rewrite <- app_assoc.
    + right. exists [], u, us, [], p. split; [done|]. split; [constructor|].
      split; [done|]. by rewrite app_nil_r.
Qed.

(** [union] reads through its pointers and writes nothing. *)
Lemma range_fold_frame `{Ext : External} {X Acc : Type} (l : list X) (acc : Acc)
    (body : Acc → X → M Acc) (s : state) (h : store) :
  (∀ acc x, match body acc x s h with
            | Done _ s' h' | Panicked _ s' h' => s' = s ∧ h' = h
            end) →
  match range_fold l acc body s h with
  | Done _ s' h' | Panicked _ s' h' => s' = s ∧ h' = h
  end.
Proof.
  intros Hbody. revert acc. induction l as [|x l IH]; intros acc; [done|].
  cbn [range_fold]. rewrite run_bind.
  pose proof (Hbody acc x) as H.
  destruct (body acc x s h) as [acc' s' h'|p s' h']; destruct H as [-> ->];
    [apply IH|done].
Qed.

Lemma union_frame `{Ext : External} (a b : list loc) (s : state) (h : store) :
  match union a b s h with
  | Done _ s' h' | Panicked _ s' h' => s' = s ∧ h' = h
  end.
Proof.
  unfold union. apply range_fold_frame. intros us ra.
  apply range_fold_frame. intros us' rb.
  rewrite run_bind. unfold load at 1.
  destruct (h !! ra); [|done].
  rewrite run_bind. unfold load at 1.
  destruct (h !! rb); done.
Qed.

(** X2.  [walkBinary] writes to no record that existed before it ran: every
    result is a newly allocated record, the results are returned in the order
    of their allocation, and the requests are those its operands registered;
    this holds also when an operator fails part of the way. *)
Theorem walkBinary_fresh `{Ext : External} `{Pr : !Printer} (OpStr : string)
    (Arg0 Arg1 : Node) (T : Timer) (s s1 s2 : state) (h h1 h2 : store)
    (ar br : list loc) :
  walk Arg0 T s h = Done ar s1 h1 →
  walk Arg1 T s1 h1 = Done br s2 h2 →
  match walk (BinaryNode OpStr Arg0 Arg1) T s h with
  | Done res s3 h3 =>
      s3 = s2 ∧ ∃ new, h3 = h2 ++ new ∧ res = seq (length h2) (length new)
  | Panicked _ s3 h3 => s3 = s2 ∧ ∃ new, h3 = h2 ++ new
  end.
Proof.
  intros H0 H1.
  change (walk (BinaryNode OpStr Arg0 Arg1) T)
    with (walkBinary_of walk (BinaryNode OpStr Arg0 Arg1) OpStr Arg0 Arg1 T).
  unfold walkBinary_of. rewrite run_bind, H0, run_bind, H1, run_bind.
  pose proof (union_frame ar br s2 h2) as Hu.
  destruct (union ar br s2 h2) as [us s3 h3|p s3 h3]; destruct Hu as [-> ->].
  - destruct (walkBinary_loop OpStr (String_ (BinaryNode OpStr Arg0 Arg1)) us [] s2 h2)
      as [(new & _ & ->)|(us1 & u & us2 & new & p & _ & _ & _ & ->)].
    + split; [done|]. by exists new.
    + split; [done|]. by exists new.
  - split; [done|]. exists []. by rewrite app_nil_r.
Qed.

Lemma walkBinary_fresh_witness :
  walk (Ext := demo) (Pr := demo_printer) (NumberNode 1) 0 state0 store0
  = Done [4] state0 (store0 ++ [mkResult [] (Scalar 1) ∅])
  ∧ walk (Ext := demo) (Pr := demo_printer) (NumberNode 2) 0 state0
      (store0 ++ [mkResult [] (Scalar 1) ∅])
    = Done [5] state0 (store0 ++ [mkResult [] (Scalar 1) ∅; mkResult [] (Scalar 2) ∅])
  ∧ match walk (Ext := demo) (Pr := demo_printer)
            (BinaryNode "+" (NumberNode 1) (NumberNode 2)) 0 state0 store0 with
    | Done res s3 h3 =>
        s3 = state0
        ∧ ∃ new, h3 = (store0 ++ [mkResult [] (Scalar 1) ∅; mkResult [] (Scalar 2) ∅])
                      ++ new
                 ∧ res = seq 6 (length new)
    | Panicked _ s3 h3 =>
        s3 = state0
        ∧ ∃ new, h3 = (store0 ++ [mkResult [] (Scalar 1) ∅; mkResult [] (Scalar 2) ∅])
                      ++ new
    end.
Proof.
  split; [reflexivity|]. split; [reflexivity|].
  apply (walkBinary_fresh (Ext := demo) (Pr := demo_printer) "+" (NumberNode 1)
           (NumberNode 2) 0 state0 state0 state0 store0
           (store0 ++ [mkResult [] (Scalar 1) ∅])
           (store0 ++ [mkResult [] (Scalar 1) ∅; mkResult [] (Scalar 2) ∅])
           [4] [5]); reflexivity.
Defined.

Lemma union_no_pairs (ras rbs : list Result) :
  (∀ ra rb, ra ∈ ras → rb ∈ rbs → ¬ combinable ra rb) →
  (ras ≫= λ va, omap (union_body va) rbs) = [].
Proof.
  intros Hno. induction ras as [|ra ras IH]; [done|].
  rewrite bind_cons.
  rewrite IH by (intros ra' rb Ha Hb; apply Hno; [by right|done]).
  rewrite app_nil_r.
  assert (∀ rb, rb ∈ rbs → union_body ra rb = None) as Hnone.
  { intros rb Hb. destruct (union_body ra rb) eqn:E; [|done].
    destruct (Hno ra rb); [by left|done|].
    apply union_body_is_Some. by rewrite E. }
  clear Hno IH. induction rbs as [|rb rbs IH]; [done|].
  simpl. rewrite (Hnone rb) by by left.
  apply IH. intros rb' Hb. apply Hnone. by right.
Qed.

(** X3.  When no result of the left operand combines with a result of the
    right one (for instance because a side has no results at all),
    [walkBinary] returns the empty slice and raises no error, whatever the
    operator token is: the token is looked at only when it is applied. *)
Theorem walkBinary_no_pairs `{Ext : External} `{Pr : !Printer} (OpStr : string)
    (Arg0 Arg1 : Node) (T : Timer) (s s1 s2 : state) (h h1 h2 : store)
    (ar br : list loc) (ras rbs : list Result) :
  walk Arg0 T s h = Done ar s1 h1 →
  walk Arg1 T s1 h1 = Done br s2 h2 →
  points_to h2 ar ras →
  points_to h2 br rbs →
  (∀ ra rb, ra ∈ ras → rb ∈ rbs → ¬ combinable ra rb) →
  walk (BinaryNode OpStr Arg0 Arg1) T s h = Done [] s2 h2.
Proof.
  intros H0 H1 Ha Hb Hno.
  change (walk (BinaryNode OpStr Arg0 Arg1) T)
    with (walkBinary_of walk (BinaryNode OpStr Arg0 Arg1) OpStr Arg0 Arg1 T).
  unfold walkBinary_of. rewrite run_bind, H0, run_bind, H1, run_bind.
  rewrite (union_run ar ras br rbs) by done.
  by rewrite union_no_pairs.
Qed.

Lemma walkBinary_no_pairs_witness :
  walk (Ext := demo) (Pr := demo_printer) (call_q "a") 1 (state_with []) []
  = Done [0] (state_with ["a"]) [series_of "a"]
  ∧ walk (Ext := demo) (Pr := demo_printer) (call_q "b") 1 (state_with ["a"])
      [series_of "a"]
    = Done [1] (state_with ["a"; "b"]) [series_of "a"; series_of "b"]
  ∧ walk (Ext := demo) (Pr := demo_printer)
      (BinaryNode "%" (call_q "a") (call_q "b")) 1 (state_with []) []
    = Done [] (state_with ["a"; "b"]) [series_of "a"; series_of "b"].
Proof.
  split; [reflexivity|]. split; [reflexivity|].
  apply (walkBinary_no_pairs (Ext := demo) (Pr := demo_printer) "%"
           (call_q "a") (call_q "b") 1 (state_with []) (state_with ["a"])
           (state_with ["a"; "b"]) [] [series_of "a"]
           [series_of "a"; series_of "b"] [0] [1] [series_of "a"] [series_of "b"]).
  - reflexivity.
  - reflexivity.
  - repeat constructor.
  - repeat constructor.
  - intros ra rb ->%list_elem_of_singleton ->%list_elem_of_singleton.
    intros Hc%union_body_is_Some. vm_compute in Hc. by destruct Hc.
Defined.

(** ** Scalars and numbers under a binary operator *)

(** X4.  For a union of two values that are each a Scalar or a Number,
    [walkBinary] applies the operator to the two floats, left on the left;
    the result is a Scalar when both sides are Scalars and a Number as soon
    as one side is a Number; it keeps the union's group, and its computations
    are the union's followed by one entry for the node, with the group's tags
    substituted into its text.  A failure of the operator is the failure of
    the loop body. *)
Theorem walkBinary_numeric `{Ext : External} (OpStr text : string) (v : Union)
    (x y : float64) :
  numeric (A v) = Some x →
  numeric (B v) = Some y →
  walkBinary_body OpStr text v
  = n ← operate OpStr x y;
    mret {| Computations :=
              UComputations v ++ [mkComputation (ReplaceTags text (UGroup v)) n];
            RValue := if is_Scalar (A v) && is_Scalar (B v) then Scalar n
                      else Number n;
            Group := UGroup v |}.
Proof.
  intros HA HB. unfold walkBinary_body.
  destruct (A v) as [a|a|sa], (B v) as [b|b|sb]; simplify_eq/=;
    by destruct (operate OpStr x y).
Qed.

Lemma walkBinary_numeric_witness :
  numeric (Scalar 6) = Some 6%float
  ∧ numeric (Number 3) = Some 3%float
  ∧ walkBinary_body (Ext := demo) "/" "6 / n"
      (mkUnion [mkComputation "n" 3] (Scalar 6) (Number 3) host_a)
    = Ok (mkResult [mkComputation "n" 3; mkComputation "6 / n" 2] (Number 2) host_a).
Proof.
  split; [reflexivity|]. split; [reflexivity|].
  etrans.
  - apply (walkBinary_numeric (Ext := demo) "/" "6 / n"
             (mkUnion [mkComputation "n" 3] (Scalar 6) (Number 3) host_a) 6 3);
      reflexivity.
  - reflexivity.
Defined.

(** ** An operand that is a literal *)

Lemma walkBinary_loop_run `{Ext : External} (OpStr text : string) (us : list Union)
    (rs : list Result) (res : list loc) (s : state) (h : store) :
  Forall2 (λ u r, walkBinary_body OpStr text u = Ok r) us rs →
  range_fold us res (λ res v,
      r ← lift (walkBinary_body OpStr text v);
      p ← alloc r;
      mret (res ++ [p])) s h
  = Done (res ++ seq (length h) (length rs)) s (h ++ rs).
Proof.
  intros Hus. revert res h.
  induction Hus as [|u r us rs Hu _ IH]; intros res h.
  - simpl. by rewrite !app_nil_r.
  - rewrite walkBinary_loop_cons, Hu, IH.
    rewrite length_app, <- !app_assoc. simpl. by rewrite Nat.add_1_r.
Qed.

Lemma union_body_literal (ra : Result) (f : float64) :
  ∃ u, union_body ra (mkResult [] (Scalar f) ∅) = Some u
       ∧ A u = RValue ra ∧ B u = Scalar f ∧ UGroup u = Group ra
       ∧ UComputations u = Computations ra.
Proof.
  destruct (union_body ra (mkResult [] (Scalar f) ∅)) as [u|] eqn:E.
  - exists u. split; [done|].
    apply union_body_Some in E as (HA & HB & HC & HG).
    split; [done|]. split; [done|]. simpl in HC. rewrite app_nil_r in HC.
    split; [|done]. rewrite HG. simpl.
    assert (bool_decide (len (∅ : TagSet) = 0) = true) as -> by by apply len_zero.
    rewrite orb_true_r.
    destruct (bool_decide (len (Group ra) = 0)) eqn:Hlen; [|done].
    by apply len_zero in Hlen.
  - assert (is_Some (union_body ra (mkResult [] (Scalar f) ∅))) as [u Hu].
    { apply union_body_is_Some. unfold combinable. simpl. auto. }
    congruence.
Qed.

Lemma walkBinary_body_literal `{Ext : External} (OpStr text : string) (u : Union)
    (f : float64) (g : float64 → float64) :
  (∀ y, operate OpStr y f = Ok (g y)) →
  B u = Scalar f →
  ∃ r, walkBinary_body OpStr text u = Ok r
       ∧ Group r = UGroup u ∧ RValue r = map_Value g (A u).
Proof.
  intros Hg HB. unfold walkBinary_body. rewrite HB.
  destruct (A u) as [x|x|ser].
  - rewrite Hg. by eexists.
  - rewrite Hg. by eexists.
  - rewrite (series_map_Ok _ g) by auto. by eexists.
Qed.

Lemma union_literal `{Ext : External} (OpStr text : string) (f : float64)
    (g : float64 → float64) (ras : list Result) :
  (∀ y, operate OpStr y f = Ok (g y)) →
  ∃ rs,
    Forall2 (λ u r, walkBinary_body OpStr text u = Ok r)
      (ras ≫= λ va, omap (union_body va) [mkResult [] (Scalar f) ∅]) rs
    ∧ Forall2 (λ ra r, Group r = Group ra
                       ∧ RValue r = map_Value g (RValue ra)) ras rs.
Proof.
  intros Hg. induction ras as [|ra ras (rs & Hus & Hrs)].
  - exists []. split; constructor.
  - destruct (union_body_literal ra f) as (u & Hu & HA & HB & HG & _).
    destruct (walkBinary_body_literal OpStr text u f g Hg HB) as (r & Hr & Hgr & Hv).
    exists (r :: rs). rewrite bind_cons. simpl. rewrite Hu. simpl. split.
    + by constructor.
    + constructor; [|done]. by rewrite Hgr, Hv, HG, HA.
Qed.

(** X5.  Combining the results of an expression with a number literal on
    the right, under a recognised operator, yields one new result for each
    result of the expression, in the same order and with the same group; its
    value is the operator applied to the float of a Scalar or Number, or to
    every sample of a Series, with the literal on the right. *)
Theorem walkBinary_literal `{Ext : External} `{Pr : !Printer} (OpStr : string)
    (Arg0 : Node) (f : float64) (T : Timer) (s s1 : state) (h h1 : store)
    (ar : list loc) (ras : list Result) :
  OpStr ∈ binary_ops →
  walk Arg0 T s h = Done ar s1 h1 →
  points_to h1 ar ras →
  ∃ (g : float64 → float64) (rs : list Result),
    (∀ y, operate OpStr y f = Ok (g y))
    ∧ walk (BinaryNode OpStr Arg0 (NumberNode f)) T s h
      = Done (seq (S (length h1)) (length ras)) s1
          (h1 ++ mkResult [] (Scalar f) ∅ :: rs)
    ∧ Forall2 (λ ra r, Group r = Group ra
                       ∧ RValue r = map_Value g (RValue ra)) ras rs.
Proof.
  intros Hop H0 Ha.
  set (g := λ y, match operate OpStr y f with Ok r => r | Panic _ => 0%float end).
  assert (∀ y, operate OpStr y f = Ok (g y)) as Hg.
  { intros y. unfold g. by destruct (operate_known OpStr y f Hop) as [r ->]. }
  destruct (union_literal OpStr (String_ (BinaryNode OpStr Arg0 (NumberNode f)))
              f g ras Hg) as (rs & Hus & Hrs).
  exists g, rs. split; [done|]. split; [|done].
  change (walk (BinaryNode OpStr Arg0 (NumberNode f)) T)
    with (walkBinary_of walk (BinaryNode OpStr Arg0 (NumberNode f)) OpStr Arg0
            (NumberNode f) T).
  unfold walkBinary_of. rewrite run_bind, H0, run_bind.
  change (walk (NumberNode f) T s1 h1)
    with (Done [length h1] s1 (h1 ++ [mkResult [] (Scalar f) ∅])).
  cbv beta iota. rewrite run_bind.
  rewrite (union_run ar ras [length h1] [mkResult [] (Scalar f) ∅]).
  - rewrite (walkBinary_loop_run _ _ _ rs) by done.
    rewrite length_app, Nat.add_1_r, <- app_assoc. simpl.
    by rewrite (Forall2_length _ _ _ Hrs).
  - eapply Forall2_impl; [exact Ha|]. intros l r Hl. simpl in Hl.
    by apply lookup_app_l_Some.
  - constructor; [|constructor]. by rewrite list_lookup_middle.
Qed.

Lemma walkBinary_literal_witness :
  "*" ∈ binary_ops
  ∧ walk (Ext := demo) (Pr := demo_printer) (call_q "a") 1 (state_with []) []
    = Done [0] (state_with ["a"]) [series_of "a"]
  ∧ points_to [series_of "a"] [0] [series_of "a"]
  ∧ ∃ (g : float64 → float64) (rs : list Result),
      (∀ y, operate "*" y 2 = Ok (g y))
      ∧ walk (Ext := demo) (Pr := demo_printer)
          (BinaryNode "*" (call_q "a") (NumberNode 2)) 1 (state_with []) []
        = Done (seq 2 1) (state_with ["a"])
            ([series_of "a"] ++ mkResult [] (Scalar 2) ∅ :: rs)
      ∧ Forall2 (λ ra r, Group r = Group ra
                         ∧ RValue r = map_Value g (RValue ra)) [series_of "a"] rs.
Proof.
  assert ("*" ∈ binary_ops) as Hop by (apply list_elem_of_In; simpl; tauto).
  split; [exact Hop|]. split; [reflexivity|].
  split; [repeat constructor|].
  apply (walkBinary_literal (Ext := demo) (Pr := demo_printer) "*" (call_q "a") 2
           1 (state_with []) (state_with ["a"]) [] [series_of "a"] [0]
           [series_of "a"] Hop); [reflexivity | repeat constructor].
Defined.

(** ** NaN operands *)

Lemma is_nan_eq (a : float64) : is_nan a = true → a = nan.
Proof.
  intros Ha. destruct (Prim2SF_cases a) as [[_ E]|[H|[H|H]]].
  - by rewrite <- (SF2Prim_Prim2SF a), E.
  - destruct H as [H _]; congruence.
  - destruct H as [H _]; congruence.
  - destruct H as [H _]; congruence.
Qed.

Lemma Prim2SF_nan_eq (r : float64) : Prim2SF r = S754_nan → r = nan.
Proof. intros E. by rewrite <- (SF2Prim_Prim2SF r), E. Qed.

Lemma arith_nan (a b : float64) :
  is_nan a = true ∨ is_nan b = true →
  (a + b = nan ∧ a - b = nan ∧ a * b = nan ∧ a / b = nan)%float.
Proof.
  intros H.
  assert (Prim2SF a = S754_nan ∨ Prim2SF b = S754_nan) as H'.
  { destruct H as [H|H]; apply is_nan_eq in H; subst; auto. }
  repeat split; apply Prim2SF_nan_eq.
  - rewrite add_spec. destruct H' as [-> | ->]; [done|].
    by destruct (Prim2SF a).
  - rewrite sub_spec. destruct H' as [-> | ->]; [done|].
    by destruct (Prim2SF a).
  - rewrite mul_spec. destruct H' as [-> | ->]; [done|].
    by destruct (Prim2SF a).
  - rewrite div_spec. destruct H' as [-> | ->]; [done|].
    by destruct (Prim2SF a).
Qed.

Lemma ieee_compare_nan (a b : float64) :
  is_nan a = true ∨ is_nan b = true → ieee_compare a b = None.
Proof.
  intros H. unfold ieee_compare.
  destruct H as [H|H]; apply is_nan_eq in H; subst.
  - done.
  - by destruct (Prim2SF a).
Qed.

(** X6.  When an operand is NaN, [operate] yields NaN for each of
    [+ - * /], 0 for each of [== < <= > >=] and 1 for [!=]; no operator
    raises an error on a NaN. *)
Theorem operate_nan (a b : float64) :
  is_nan a = true ∨ is_nan b = true →
  (∀ op, op ∈ ["+"; "-"; "*"; "/"] → operate op a b = Ok nan)
  ∧ (∀ op, op ∈ ["=="; "<"; "<="; ">"; ">="] → operate op a b = Ok 0%float)
  ∧ operate "!=" a b = Ok 1%float.
Proof.
  intros H. destruct (arith_nan a b H) as (Hadd & Hsub & Hmul & Hdiv).
  pose proof (ieee_compare_nan a b H) as Hc.
  split; [|split].
  - intros op Hop. apply list_elem_of_In in Hop. simpl in Hop.
    destruct Hop as [<-|[<-|[<-|[<-|[]]]]]; simpl; congruence.
  - intros op Hop.
    rewrite operate_comparison.
    + rewrite Hc. apply list_elem_of_In in Hop. simpl in Hop.
      by destruct Hop as [<-|[<-|[<-|[<-|[<-|[]]]]]].
    + apply list_elem_of_In in Hop. apply list_elem_of_In. simpl in *. tauto.
  - rewrite operate_comparison by (apply list_elem_of_In; simpl; tauto).
    by rewrite Hc.
Qed.

Lemma operate_nan_witness :
  (is_nan (0 / 0) = true ∨ is_nan 1 = true)
  ∧ (∀ op, op ∈ ["+"; "-"; "*"; "/"] → operate op (0 / 0) 1 = Ok nan)
  ∧ (∀ op, op ∈ ["=="; "<"; "<="; ">"; ">="] → operate op (0 / 0) 1 = Ok 0%float)
  ∧ operate "!=" (0 / 0) 1 = Ok 1%float.
Proof.
  assert (is_nan (0 / 0) = true ∨ is_nan 1 = true) as H by (left; reflexivity).
  split; [exact H|]. exact (operate_nan (0 / 0) 1 H).
Defined.

(** ** Operators applied in sequence *)

Lemma opp_involutive (a : float64) : (- - a)%float = a.
Proof.
  apply Prim2SF_inj. rewrite !opp_spec.
  destruct (Prim2SF a) as [sg|sg| |sg m e]; simpl; by rewrite ?negb_involutive.
Qed.

Lemma of_bool_is_zero (b : bool) : is_zero (of_bool b) = negb b.
Proof. by destruct b. Qed.

(** X7.  Applying [uoperate] twice: negating twice gives the float back,
    for every float; [!] applied twice gives 1 for a float that is not a
    zero and 0 for a zero, so that a third [!] is the same as one. *)
Theorem uoperate_twice (a : float64) :
  (x ← uoperate "-" a; uoperate "-" x) = Ok a
  ∧ (x ← uoperate "!" a; uoperate "!" x) = Ok (if is_zero a then 0 else 1)%float
  ∧ (x ← uoperate "!" a; y ← uoperate "!" x; uoperate "!" y) = uoperate "!" a.
Proof.
  split; [|split].
  - simpl. by rewrite opp_involutive.
  - change ((x ← uoperate "!" a; uoperate "!" x))
      with (Ok (of_bool (is_zero (of_bool (is_zero a))))).
    rewrite of_bool_is_zero. by destruct (is_zero a).
  - change ((x ← uoperate "!" a; y ← uoperate "!" x; uoperate "!" y))
      with (Ok (of_bool (is_zero (of_bool (is_zero (of_bool (is_zero a))))))).
    change (uoperate "!" a) with (Ok (of_bool (is_zero a))).
    rewrite !of_bool_is_zero. by destruct (is_zero a).
Qed.

(** X8.  The logical operators obey De Morgan's laws on every pair of
    floats: [!(a || b)] is [!a && !b], and [!(a && b)] is [!a || !b]. *)
Theorem operate_de_morgan (a b : float64) :
  (r ← operate "||" a b; uoperate "!" r)
  = (x ← uoperate "!" a; y ← uoperate "!" b; operate "&&" x y)
  ∧ (r ← operate "&&" a b; uoperate "!" r)
    = (x ← uoperate "!" a; y ← uoperate "!" b; operate "||" x y).
Proof.
  split.
  - change (Ok (of_bool (is_zero (of_bool (negb (is_zero a) || negb (is_zero b)))))
            = Ok (of_bool (negb (is_zero (of_bool (is_zero a)))
                           && negb (is_zero (of_bool (is_zero b)))))).
    rewrite !of_bool_is_zero. by destruct (is_zero a), (is_zero b).
  - change (Ok (of_bool (is_zero (of_bool (negb (is_zero a) && negb (is_zero b)))))
            = Ok (of_bool (negb (is_zero (of_bool (is_zero a)))
                           || negb (is_zero (of_bool (is_zero b)))))).
    rewrite !of_bool_is_zero. by destruct (is_zero a), (is_zero b).
Qed.

(** ** Negating twice *)

Lemma walkUnary_run `{Ext : External} `{Pr : !Printer} (OpStr : string)
    (Arg : Node) (T : Timer) (s s1 : state) (h h1 : store) (a : list loc) :
  OpStr ∈ unary_ops →
  walk Arg T s h = Done a s1 h1 →
  Forall (λ r, is_Some (h1 !! r)) a →
  walk (UnaryNode OpStr Arg) T s h
  = Done a s1
      (updated (λ v, setValue v (map_Value (unary_fn OpStr) (RValue v))) a h1).
Proof.
  intros Hop Hwalk Ha.
  set (g := λ v, setValue v (map_Value (unary_fn OpStr) (RValue v))).
  change (walk (UnaryNode OpStr Arg) T) with (walkUnary_of walk OpStr Arg T).
  unfold walkUnary_of. rewrite run_bind, Hwalk, run_bind.
  assert (for_range a (walkUnary_body OpStr) s1 h1
          = Done () s1 (updated g a h1)) as ->; [|done].
  apply (for_range_updated (walkUnary_body OpStr) g (λ _, True)).
  - intros r v s' h' Hr _. by apply (walkUnary_body_run OpStr r v).
  - done.
  - eapply Forall_impl; [exact Ha|]. intros r [v Hr]. eauto.
Qed.

Lemma iter_involutive {X : Type} (g : X → X) (n : nat) (x : X) :
  (∀ x, g (g x) = x) → Nat.iter n g (Nat.iter n g x) = x.
Proof.
  intros Hg. induction n as [|n IH]; [done|].
  rewrite (Nat.iter_succ_r n). cbn [Nat.iter nat_rect].
  by rewrite Hg.
Qed.

Lemma negate_twice (v : Result) :
  setValue (setValue v (map_Value (unary_fn "-") (RValue v)))
    (map_Value (unary_fn "-")
       (RValue (setValue v (map_Value (unary_fn "-") (RValue v)))))
  = v.
Proof.
  destruct v as [cs val g]. unfold setValue. simpl. f_equal.
  destruct val as [x|x|ser]; simpl.
  - by rewrite opp_involutive.
  - by rewrite opp_involutive.
  - f_equal. rewrite <- map_fmap_compose.
    rewrite <- (map_fmap_id ser) at 2. apply map_fmap_ext.
    intros k x _. simpl. apply opp_involutive.
Qed.

(** X9.  Negating an expression twice restores what the expression itself
    produced: the same slice, the same requests and a store in which every
    record is as the inner expression left it, also when several pointers of
    the slice lead to one record. *)
Theorem walkUnary_double_negation `{Ext : External} `{Pr : !Printer} (Arg : Node)
    (T : Timer) (s s1 : state) (h h1 : store) (a : list loc) :
  walk Arg T s h = Done a s1 h1 →
  Forall (λ r, is_Some (h1 !! r)) a →
  walk (UnaryNode "-" (UnaryNode "-" Arg)) T s h = Done a s1 h1.
Proof.
  intros Hwalk Ha.
  assert ("-" ∈ unary_ops) as Hop by (apply list_elem_of_In; simpl; tauto).
  set (g := λ v, setValue v (map_Value (unary_fn "-") (RValue v))).
  rewrite (walkUnary_run "-" (UnaryNode "-" Arg) T s s1 h (updated g a h1) a Hop).
  - f_equal. apply list_eq. intros r. rewrite !updated_lookup.
    destruct (h1 !! r) as [v|]; simpl; [|done].
    f_equal. apply iter_involutive. intros x. apply negate_twice.
  - by apply walkUnary_run.
  - eapply Forall_impl; [exact Ha|]. intros r [v Hr].
    rewrite updated_lookup, Hr. by eexists.
Qed.

Lemma walkUnary_double_negation_witness :
  walk (Ext := demo) (Pr := demo_printer) (call_q "a") 1 (state_with []) []
  = Done [0] (state_with ["a"]) [series_of "a"]
  ∧ Forall (λ r, is_Some ([series_of "a"] !! r)) [0]
  ∧ walk (Ext := demo) (Pr := demo_printer)
      (UnaryNode "-" (UnaryNode "-" (call_q "a"))) 1 (state_with []) []
    = Done [0] (state_with ["a"]) [series_of "a"].
Proof.
  split; [reflexivity|].
  assert (Forall (λ r, is_Some ([series_of "a"] !! r)) [0]) as Hv.
  { constructor; [by eexists | constructor]. }
  split; [exact Hv|].
  apply (walkUnary_double_negation (Ext := demo) (Pr := demo_printer) (call_q "a")
           1 (state_with []) (state_with ["a"]) [] [series_of "a"] [0]);
    [reflexivity | exact Hv].
Defined.

(** ** An operator token outside the table *)

(** X10.  A unary operator token that [uoperate] does not recognise fails
    at the first result it is applied to, before any record is written, with
    the unknown-operator error; when the argument has no results the token
    is never looked at and the empty slice is returned. *)
Theorem walkUnary_unknown_operator `{Ext : External} `{Pr : !Printer}
    (OpStr : string) (Arg : Node) (T : Timer) (s s1 : state) (h h1 : store)
    (a : list loc) :
  OpStr ∉ unary_ops →
  walk Arg T s h = Done a s1 h1 →
  (a = [] → walk (UnaryNode OpStr Arg) T s h = Done [] s1 h1)
  ∧ (∀ r rest v, a = r :: rest → h1 !! r = Some v → RValue v ≠ Series ∅ →
       walk (UnaryNode OpStr Arg) T s h
       = Panicked (PanicError (Errorf ("expr: unknown operator " ++ OpStr)%string))
           s1 h1).
Proof.
  intros Hop Hwalk.
  change (walk (UnaryNode OpStr Arg) T) with (walkUnary_of walk OpStr Arg T).
  unfold walkUnary_of. rewrite run_bind, Hwalk. split.
  - by intros ->.
  - intros r rest v -> Hr Hv. rewrite run_bind. cbn [for_range].
    rewrite run_bind. unfold walkUnary_body at 1.
    rewrite run_bind, (run_load _ _ _ _ Hr).
    destruct (RValue v) as [x|x|ser].
    + rewrite run_bind. by rewrite (uoperate_unknown OpStr x Hop).
    + rewrite run_bind. by rewrite (uoperate_unknown OpStr x Hop).
    + rewrite run_bind.
      rewrite (series_map_Panic (uoperate OpStr)
                 (PanicError (Errorf ("expr: unknown operator " ++ OpStr)%string))).
      * done.
      * intros y. by apply uoperate_unknown.
      * congruence.
Qed.

Lemma walkUnary_unknown_operator_witness :
  ("~" ∉ unary_ops)
  ∧ walk (Ext := demo) (Pr := demo_printer) (NumberNode 3) 0 state0 store0
    = Done [4] state0 (store0 ++ [mkResult [] (Scalar 3) ∅])
  ∧ walk (Ext := demo) (Pr := demo_printer) (UnaryNode "~" (NumberNode 3)) 0
      state0 store0
    = Panicked (PanicError (Errorf "expr: unknown operator ~")) state0
        (store0 ++ [mkResult [] (Scalar 3) ∅]).
Proof.
  assert ("~" ∉ unary_ops) as Hop.
  { intros H. apply list_elem_of_In in H. simpl in H.
    destruct H as [H|[H|[]]]; discriminate H. }
  split; [exact Hop|]. split; [reflexivity|].
  apply (proj2 (walkUnary_unknown_operator (Ext := demo) (Pr := demo_printer) "~"
                  (NumberNode 3) 0 state0 state0 store0
                  (store0 ++ [mkResult [] (Scalar 3) ∅]) [4] Hop eq_refl)
           4 [] (mkResult [] (Scalar 3) ∅)); [reflexivity | reflexivity | discriminate].
Defined.

(** ** Expressions without function calls *)

Lemma walkBinary_scalars `{Ext : External} `{Pr : !Printer} (OpStr : string)
    (Arg0 Arg1 : Node) (T : Timer) (s : state) (h h1 h2 : store)
    (va vb : Result) (x y : float64) :
  walk Arg0 T s h = Done [length h1] s (h1 ++ [va]) →
  walk Arg1 T s (h1 ++ [va]) = Done [length h2] s (h2 ++ [vb]) →
  (h1 ++ [va]) `prefix_of` h2 →
  RValue va = Scalar x → Group va = ∅ →
  RValue vb = Scalar y → Group vb = ∅ →
  walk (BinaryNode OpStr Arg0 Arg1) T s h
  = match operate OpStr x y with
    | Ok n =>
        Done [length (h2 ++ [vb])] s
          ((h2 ++ [vb]) ++
           [mkResult
              (Computations va ++ Computations vb ++
               [mkComputation
                  (ReplaceTags (String_ (BinaryNode OpStr Arg0 Arg1)) ∅) n])
              (Scalar n) ∅])
    | Panic p => Panicked p s (h2 ++ [vb])
    end.
Proof.
  intros H0 H1 [k Hk] Hva Hga Hvb Hgb.
  change (walk (BinaryNode OpStr Arg0 Arg1) T)
    with (walkBinary_of walk (BinaryNode OpStr Arg0 Arg1) OpStr Arg0 Arg1 T).
  unfold walkBinary_of. rewrite run_bind, H0, run_bind, H1, run_bind.
  rewrite (union_pair (length h1) (length h2) va vb).
  - destruct (union_body va vb) as [u|] eqn:Hu.
    + apply union_body_Some in Hu as (HA & HB & HC & HG).
      assert (UGroup u = ∅) as HG'.
      { rewrite HG, Hga, Hgb. done. }
      simpl. rewrite run_bind.
      unfold walkBinary_body. rewrite HA, HB, Hva, Hvb.
      destruct (operate OpStr x y) as [n|p]; simpl; [|done].
      unfold alloc, mret, M_ret. simpl.
      unfold AddComputation, newResult. simpl. rewrite HC, HG'.
      by rewrite <- (app_assoc (Computations va)).
    + assert (is_Some (union_body va vb)) as [u' Hu'].
      { apply union_body_is_Some. left. congruence. }
      congruence.
  - rewrite Hk, <- !app_assoc. simpl. by rewrite list_lookup_middle.
  - by rewrite list_lookup_middle.
Qed.

Lemma walkUnary_scalar `{Ext : External} `{Pr : !Printer} (OpStr : string)
    (Arg : Node) (T : Timer) (s : state) (h h1 : store) (v : Result) (x : float64) :
  walk Arg T s h = Done [length h1] s (h1 ++ [v]) →
  RValue v = Scalar x →
  walk (UnaryNode OpStr Arg) T s h
  = match uoperate OpStr x with
    | Ok n => Done [length h1] s (h1 ++ [setValue v (Scalar n)])
    | Panic p => Panicked p s (h1 ++ [v])
    end.
Proof.
  intros Hwalk Hv.
  change (walk (UnaryNode OpStr Arg) T) with (walkUnary_of walk OpStr Arg T).
  unfold walkUnary_of. rewrite run_bind, Hwalk, run_bind. cbn [for_range].
  rewrite run_bind. unfold walkUnary_body at 1.
  rewrite run_bind, (run_load _ v) by by rewrite list_lookup_middle.
  rewrite Hv, run_bind.
  destruct (uoperate OpStr x) as [n|p]; simpl; [|done].
  unfold save, mret, M_ret. simpl.
  rewrite insert_app_r_alt by done. by rewrite Nat.sub_diag.
Qed.

Lemma walk_constant_run `{Ext : External} `{Pr : !Printer} (node : Node)
    (r : fallible float64) (T : Timer) (s : state) (h : store) :
  constant node = Some r →
  match r with
  | Ok x =>
      ∃ h' v, h `prefix_of` h'
        ∧ walk node T s h = Done [length h'] s (h' ++ [v])
        ∧ RValue v = Scalar x ∧ Group v = ∅
  | Panic p =>
      (∃ msg, p = PanicError (Errorf msg))
      ∧ ∃ h', h `prefix_of` h' ∧ walk node T s h = Panicked p s h'
  end.
Proof.
  revert r h. induction node as [f|t|op l IHl r0 IHr|op a IHa|name Fn args];
    intros r h Hc.
  - injection Hc as <-. exists h, (mkResult [] (Scalar f) ∅). done.
  - injection Hc as <-. split; [by eexists|]. by exists h.
  - simpl in Hc.
    destruct (constant l) as [ra|] eqn:Hl; [|done].
    destruct (constant r0) as [rb|] eqn:Hr; [|done].
    injection Hc as <-.
    specialize (IHl ra h eq_refl).
    destruct ra as [x|p]; cbv beta iota delta [mbind fallible_bind].
    + destruct IHl as (h1 & va & Hp1 & H0 & Hva & Hga).
      specialize (IHr rb (h1 ++ [va]) eq_refl).
      destruct rb as [y|p]; cbv beta iota delta [mbind fallible_bind].
      * destruct IHr as (h2 & vb & Hp2 & H1 & Hvb & Hgb).
        rewrite (walkBinary_scalars op l r0 T s h h1 h2 va vb x y) by done.
        assert (h `prefix_of` h2 ++ [vb]) as Hp.
        { etrans; [exact Hp1|]. etrans; [|by apply prefix_app_r].
          by apply prefix_app_r. }
        destruct (operate op x y) as [n|p] eqn:Hop.
        -- eexists (h2 ++ [vb]), _. split; [done|]. split; [done|]. done.
        -- split; [|by exists (h2 ++ [vb])].
           destruct (decide (op ∈ binary_ops)) as [Hin|Hin].
           ++ destruct (operate_known op x y Hin). congruence.
           ++ rewrite operate_unknown in Hop by done. injection Hop as <-. by eexists.
      * destruct IHr as (Hmsg & h2 & Hp2 & H1). split; [done|].
        exists h2. split.
        { etrans; [exact Hp1|]. etrans; [|exact Hp2]. by apply prefix_app_r. }
        change (walk (BinaryNode op l r0) T)
          with (walkBinary_of walk (BinaryNode op l r0) op l r0 T).
        unfold walkBinary_of. by rewrite run_bind, H0, run_bind, H1.
    + destruct IHl as (Hmsg & h1 & Hp1 & H0). split; [done|].
      exists h1. split; [done|].
      change (walk (BinaryNode op l r0) T)
        with (walkBinary_of walk (BinaryNode op l r0) op l r0 T).
      unfold walkBinary_of. by rewrite run_bind, H0.
  - simpl in Hc.
    destruct (constant a) as [ra|] eqn:Ha; [|done].
    injection Hc as <-.
    specialize (IHa ra h eq_refl).
    destruct ra as [x|p]; cbv beta iota delta [mbind fallible_bind].
    + destruct IHa as (h1 & v & Hp1 & H0 & Hv & Hg).
      rewrite (walkUnary_scalar op a T s h h1 v x) by done.
      destruct (uoperate op x) as [n|p] eqn:Hop.
      * exists h1, (setValue v (Scalar n)). done.
      * split; [|exists (h1 ++ [v]); split; [by apply prefix_app_r|done]].
        destruct (decide (op ∈ unary_ops)) as [Hin|Hin].
        -- rewrite uoperate_known in Hop by done. congruence.
        -- rewrite uoperate_unknown in Hop by done. injection Hop as <-. by eexists.
    + destruct IHa as (Hmsg & h1 & Hp1 & H0). split; [done|].
      exists h1. split; [done|].
      change (walk (UnaryNode op a) T) with (walkUnary_of walk op a T).
      unfold walkUnary_of. by rewrite run_bind, H0.
  - done.
Qed.

(** X11.  An expression that calls no function and whose operators all
    succeed evaluates, wherever it occurs, to exactly one new Scalar result
    with an empty group, holding the value that the operators give on the
    literals; the records that existed before are not written and no request
    is registered.  When a literal is a string or an operator fails, the
    walk panics with that ordinary error, again leaving the earlier records
    and the requests alone. *)
Theorem walk_constant `{Ext : External} `{Pr : !Printer} (node : Node)
    (r : fallible float64) (T : Timer) (s : state) (h : store) :
  constant node = Some r →
  match r with
  | Ok x =>
      ∃ h' v, h `prefix_of` h'
        ∧ walk node T s h = Done [length h'] s (h' ++ [v])
        ∧ RValue v = Scalar x ∧ Group v = ∅
  | Panic p => ∃ h', h `prefix_of` h' ∧ walk node T s h = Panicked p s h'
  end.
Proof.
  intros Hc. pose proof (walk_constant_run node r T s h Hc) as H.
  destruct r as [x|p]; [done|]. by destruct H as [_ H].
Qed.

Lemma walk_constant_witness :
  constant (Ext := demo) (BinaryNode "-" (NumberNode 5) (UnaryNode "-" (NumberNode 2)))
  = Some (Ok 7%float)
  ∧ ∃ h' v, store0 `prefix_of` h'
      ∧ walk (Ext := demo) (Pr := demo_printer)
          (BinaryNode "-" (NumberNode 5) (UnaryNode "-" (NumberNode 2))) 0 state0 store0
        = Done [length h'] state0 (h' ++ [v])
      ∧ RValue v = Scalar 7 ∧ Group v = ∅.
Proof.
  split; [reflexivity|].
  apply (walk_constant (Ext := demo) (Pr := demo_printer)
           (BinaryNode "-" (NumberNode 5) (UnaryNode "-" (NumberNode 2)))
           (Ok 7%float) 0 state0 store0).
  reflexivity.
Defined.

(** X12.  [Execute] on an expression that calls no function never crashes:
    it returns either one Scalar result with an empty group, no requests and
    no error, or the ordinary error of the failing literal or operator with
    nil results and nil requests. *)
Theorem Execute_constant `{Ext : External} `{Pr : !Printer} (e : Expr)
    (r : fallible float64) (c : Context) (T : option Timer) (h : store) :
  constant (Root e) = Some r →
  match r with
  | Ok x =>
      ∃ h' v, h `prefix_of` h'
        ∧ Execute e c T h = Returned [length h'] [] None (h' ++ [v])
        ∧ RValue v = Scalar x ∧ Group v = ∅
  | Panic p =>
      ∃ msg h', p = PanicError (Errorf msg)
        ∧ Execute e c T h = Returned [] [] (Some (Errorf msg)) h'
  end.
Proof.
  intros Hc.
  pose proof (walk_constant_run (Root e) r (execute_timer T) (initial c) h Hc) as H.
  destruct r as [x|p].
  - destruct H as (h' & v & Hp & Hw & Hv & Hg). exists h', v.
    split; [done|]. split; [|done].
    by rewrite (Execute_Done e c T h _ _ _ Hw).
  - destruct H as ([msg ->] & h' & Hp & Hw). exists msg, h'. split; [done|].
    by rewrite (Execute_Panicked e c T h _ _ _ Hw).
Qed.

Lemma Execute_constant_witness :
  constant (Ext := demo) (BinaryNode "%" (NumberNode 5) (NumberNode 2))
  = Some (Panic (PanicError (Errorf "expr: unknown operator %")))
  ∧ ∃ msg h', PanicError (Errorf "expr: unknown operator %") = PanicError (Errorf msg)
      ∧ Execute (Ext := demo) (Pr := demo_printer)
          (mkExpr (BinaryNode "%" (NumberNode 5) (NumberNode 2))) tt None []
        = Returned [] [] (Some (Errorf msg)) h'.
Proof.
  split; [reflexivity|].
  apply (Execute_constant (Ext := demo) (Pr := demo_printer)
           (mkExpr (BinaryNode "%" (NumberNode 5) (NumberNode 2)))
           (Panic (PanicError (Errorf "expr: unknown operator %"))) tt None []).
  reflexivity.
Defined.

(** ** Arguments of a function call *)

Lemma walkFunc_arg_literal `{Ext : External} `{Pr : !Printer} (a : Node)
    (v : argument) (T : Timer) (s : state) (h : store) :
  literal_argument a = Some v →
  ∃ h', h `prefix_of` h' ∧ walkFunc_arg walk T a s h = Done v s h'.
Proof.
  intros Hl.
  assert (∀ x, constant a = Some (Ok x) →
               ∃ h', h `prefix_of` h'
                 ∧ (res ← walk a T; extractScalar res) s h = Done (AFloat64 x) s h')
    as Hwalk.
  { intros x Hc.
    destruct (walk_constant_run a (Ok x) T s h Hc) as (h' & r & Hp & Hw & Hv & _).
    exists (h' ++ [r]). split; [by apply prefix_app_r|].
    rewrite run_bind, Hw. unfold extractScalar.
    rewrite run_bind, (run_load _ r) by by rewrite list_lookup_middle.
    rewrite Hv. by rewrite decide_True. }
  destruct a as [f|t|op l r|op a|name Fn args]; simpl in Hl.
  - injection Hl as <-. by exists h.
  - injection Hl as <-. by exists h.
  - destruct (constant (BinaryNode op l r)) as [[x|]|] eqn:Hc; simpl in Hc, Hl;
      rewrite Hc in Hl; [|done..].
    injection Hl as <-. by apply Hwalk.
  - destruct (constant (UnaryNode op a)) as [[x|]|] eqn:Hc; simpl in Hc, Hl;
      rewrite Hc in Hl; [|done..].
    injection Hl as <-. by apply Hwalk.
  - done.
Qed.

(** X13.  A call whose arguments are string literals, number literals and
    expressions without function calls hands the built-in, in the order of
    the arguments, each string as it is and each number as a bare float64
    holding the value of the expression; evaluating the arguments registers
    no request and writes no earlier record.  When the function is not
    declared to return a Number, what the built-in returns is the result of
    the call, and an error it returns is the panic of the call. *)
Theorem walkFunc_literal_arguments `{Ext : External} `{Pr : !Printer}
    (Args : list Node) (in_ : list argument) (T : Timer) (s : state) (h : store) :
  Forall2 (λ a v, literal_argument a = Some v) Args in_ →
  ∃ h', h `prefix_of` h'
    ∧ mapM (walkFunc_arg walk T) Args s h = Done in_ s h'
    ∧ (∀ Name Fn res s2 h2,
         Return Fn ≠ TYPE_NUMBER →
         F Fn T in_ s h' = Done (res, None) s2 h2 →
         walk (FuncNode Name Fn Args) T s h = Done res s2 h2)
    ∧ (∀ Name Fn res err s2 h2,
         F Fn T in_ s h' = Done (res, Some err) s2 h2 →
         walk (FuncNode Name Fn Args) T s h = Panicked (PanicError err) s2 h2).
Proof.
  intros Hargs.
  assert (∃ h', h `prefix_of` h'
            ∧ mapM (walkFunc_arg walk T) Args s h = Done in_ s h')
    as (h' & Hp & Hm).
  { revert h. induction Hargs as [|a v Args in_ Ha _ IH]; intros h.
    - by exists h.
    - destruct (walkFunc_arg_literal a v T s h Ha) as (h1 & Hp1 & H1).
      destruct (IH h1) as (h2 & Hp2 & H2).
      exists h2. split; [by etrans|].
      cbn [mapM]. by rewrite !run_bind, H1, run_bind, H2. }
  exists h'. split; [done|]. split; [done|]. split.
  - intros Name Fn res s2 h2 Hret Hcall.
    change (walk (FuncNode Name Fn Args) T)
      with (walkFunc_of walk (FuncNode Name Fn Args) Fn Args T).
    unfold walkFunc_of. rewrite run_bind, Hm, run_bind, Hcall. simpl.
    by rewrite decide_False.
  - intros Name Fn res err s2 h2 Hcall.
    by apply (walkFunc_error Name Fn Args T s s s2 h h' h2 in_ res err).
Qed.

Lemma walkFunc_literal_arguments_witness :
  Forall2 (λ a v, literal_argument (Ext := demo) a = Some v)
    [StringNode "a"; BinaryNode "*" (NumberNode 2) (NumberNode 3); NumberNode 4]
    [AString "a"; AFloat64 6; AFloat64 4]
  ∧ ∃ h', [] `prefix_of` h'
      ∧ mapM (walkFunc_arg (Ext := demo) (walk (Pr := demo_printer)) 0)
          [StringNode "a"; BinaryNode "*" (NumberNode 2) (NumberNode 3); NumberNode 4]
          state0 []
        = Done [AString "a"; AFloat64 6; AFloat64 4] state0 h'.
Proof.
  assert (Forall2 (λ a v, literal_argument (Ext := demo) a = Some v)
            [StringNode "a"; BinaryNode "*" (NumberNode 2) (NumberNode 3); NumberNode 4]
            [AString "a"; AFloat64 6; AFloat64 4]) as Hargs.
  { repeat constructor. }
  split; [exact Hargs|].
  destruct (walkFunc_literal_arguments (Ext := demo) (Pr := demo_printer) _ _ 0
              state0 [] Hargs) as (h' & Hp & Hm & _).
  by exists h'.
Defined.

(** ** What [Execute] never returns *)

(** X14.  Whatever the expression and its built-ins do, an error that
    [Execute] returns comes with nil results and nil requests and is not a
    [runtime.Error]; results or requests are returned only with a nil error;
    and a panic that escapes [Execute] carries a [runtime.Error] or a value
    that is not an error. *)
Theorem Execute_outcomes `{Ext : External} `{Pr : !Printer} (e : Expr)
    (c : Context) (T : option Timer) (h : store) :
  match Execute e c T h with
  | Returned r qs (Some err) _ => r = [] ∧ qs = [] ∧ is_runtime_Error err = false
  | Returned r qs None h' =>
      ∃ s', walk (Root e) (execute_timer T) (initial c) h = Done r s' h'
            ∧ qs = queries s'
  | Crashed p =>
      match p with
      | PanicError err => is_runtime_Error err = true
      | PanicValue _ => True
      end
  end.
Proof.
  unfold Execute.
  change (walk (Root e) _ _ h)
    with (walk (Root e) (execute_timer T) (initial c) h).
  destruct (walk (Root e) (execute_timer T) (initial c) h) as [r s' h'|p s' h'].
  - by exists s'.
  - destruct p as [err|v]; simpl; [|done].
    by destruct (is_runtime_Error err) eqn:Herr.
Qed.

(** ** Encoding never fails *)

(** X15.  [marshalFloat] returns no error for any float: the floats that
    [json.Marshal] refuses are exactly those it encodes as a string itself.
    It yields a JSON string for a float that is not finite and the numeric
    literal of the float when it is finite. *)
Theorem marshalFloat_total (n : float64) :
  ∃ j, marshalFloat n = inl j
       ∧ match j with
         | JString s => is_finite n = false ∧ s ∈ ["NaN"; "+Inf"; "-Inf"]
         | JNumber m => is_finite n = true ∧ m = n
         end.
Proof.
  destruct (float64_classes n) as [Hn|[->|[->|Hn]]].
  - apply is_nan_eq in Hn as ->. exists (JString "NaN"). split; [done|].
    split; [done|]. apply list_elem_of_In; simpl; tauto.
  - exists (JString "+Inf"). split; [done|].
    split; [done|]. apply list_elem_of_In; simpl; tauto.
  - exists (JString "-Inf"). split; [done|].
    split; [done|]. apply list_elem_of_In; simpl; tauto.
  - exists (JNumber n). split; [|done].
    destruct (finite_within_MaxFloat64 n Hn) as [Hhi Hlo].
    unfold marshalFloat, IsInf, json_Marshal_float64.
    assert (IsNaN n = false) as ->.
    { unfold is_finite in Hn. apply negb_true_iff, orb_false_iff in Hn as [Hn _].
      exact Hn. }
    rewrite Hhi, Hlo, Hn. by rewrite !andb_false_r.
Qed.

(** ** The requests *)

Section requests.
Context `{Ext : External}.
















End requests.




(** ** Nil pointers *)

Section soundness.
Context `{Ext : External}.












End soundness.







(** ** A panic in a sub-expression *)

Lemma mapM_Panicked `{Ext : External} {X Y : Type} (f : X → M Y) (l1 l2 : list X)
    (a : X) (in1 : list Y) (p : panic_value) (s s1 s2 : state) (h h1 h2 : store) :
  mapM f l1 s h = Done in1 s1 h1 →
  f a s1 h1 = Panicked p s2 h2 →
  mapM f (l1 ++ a :: l2) s h = Panicked p s2 h2.
Proof.
  revert in1 s h. induction l1 as [|x l1 IH]; intros in1 s h H1 Ha.
  - injection H1 as <- <- <-. simpl. cbn [mapM]. by rewrite run_bind, Ha.
  - simpl. cbn [mapM] in *. rewrite run_bind in *.
    destruct (f x s h) as [y s' h'|q s' h']; [|done].
    rewrite run_bind in *.
    destruct (mapM f l1 s' h') as [ys s'' h''|q s'' h''] eqn:Hm; [|done].
    injection H1 as <- <- <-.
    by rewrite (IH ys s' h' Hm Ha).
Qed.

(** X18.  A panic raised in a sub-expression is, unchanged, the panic of
    the expression around it, and nothing is evaluated after it: not the
    right operand when the left one panics, not the operator, not the
    arguments that follow a panicking argument, and not the built-in. *)
Theorem walk_panic_propagates `{Ext : External} `{Pr : !Printer} (p : panic_value)
    (T : Timer) (s s1 s2 : state) (h h1 h2 : store) :
  (∀ op l r,
     walk l T s h = Panicked p s1 h1 →
     walk (BinaryNode op l r) T s h = Panicked p s1 h1)
  ∧ (∀ op l r ar,
       walk l T s h = Done ar s1 h1 →
       walk r T s1 h1 = Panicked p s2 h2 →
       walk (BinaryNode op l r) T s h = Panicked p s2 h2)
  ∧ (∀ op a,
       walk a T s h = Panicked p s1 h1 →
       walk (UnaryNode op a) T s h = Panicked p s1 h1)
  ∧ (∀ name Fn args1 a args2 in1,
       mapM (walkFunc_arg walk T) args1 s h = Done in1 s1 h1 →
       walkFunc_arg walk T a s1 h1 = Panicked p s2 h2 →
       walk (FuncNode name Fn (args1 ++ a :: args2)) T s h = Panicked p s2 h2).
Proof.
  split; [|split; [|split]].
  - intros op l r Hl.
    change (walk (BinaryNode op l r) T)
      with (walkBinary_of walk (BinaryNode op l r) op l r T).
    unfold walkBinary_of. by rewrite run_bind, Hl.
  - intros op l r ar Hl Hr.
    change (walk (BinaryNode op l r) T)
      with (walkBinary_of walk (BinaryNode op l r) op l r T).
    unfold walkBinary_of. by rewrite run_bind, Hl, run_bind, Hr.
  - intros op a Ha.
    change (walk (UnaryNode op a) T) with (walkUnary_of walk op a T).
    unfold walkUnary_of. by rewrite run_bind, Ha.
  - intros name Fn args1 a args2 in1 H1 Ha.
    change (walk (FuncNode name Fn (args1 ++ a :: args2)) T)
      with (walkFunc_of walk (FuncNode name Fn (args1 ++ a :: args2)) Fn
              (args1 ++ a :: args2) T).
    unfold walkFunc_of.
    by rewrite run_bind, (mapM_Panicked _ _ _ _ _ _ _ _ _ _ _ _ H1 Ha).
Qed.
